(** * go-bitfield: a shallow embedding of the bit field library

    The development embeds the three layers of the repository:
    - [V1]: the first version ([bitfield.go]), one LSb-0 bit field whose
      multi-bit operations take the single-bit interface as a parameter;
    - [V2]: the strategies of [v2/lsb.go] and [v2/msb.go], and the
      container of [v2/bitfield.go] with its stored error;
    - [V2.Plain]: the earlier container of version 2, which forwards every
      call to the strategy and stores nothing.

    Go values are modelled as follows.  A [uint64] (and [uint], taken at its
    64-bit width) is a [Z] in [0, 2^64), with the wrap-around of every
    addition and subtraction written out ([wrap64]).  A [byte] is a [Z] in
    [0, 256).  A [[]byte] is a [list Z], read and updated by index; an index
    outside the slice makes the Go runtime panic, which is an outcome of its
    own here, distinct from a returned [error].  The [error] interface value
    is an [option error], [None] being [nil]. *)

From Stdlib Require Import ZArith Lia Bool.
From stdpp Require Import base list.

Local Open Scope Z_scope.

(** ** Machine integers *)

Definition wrap64 (x : Z) : Z := x mod 2 ^ 64.
Definition wrap8 (x : Z) : Z := x mod 2 ^ 8.

Definition uint64_ok (x : Z) : Prop := 0 <= x < 2 ^ 64.
Definition byte_ok (b : Z) : Prop := 0 <= b < 2 ^ 8.

(** ** Errors

    The library builds its errors with [errors.New] and [fmt.Errorf]:
    - [OutOfRange]: "bit position out of range";
    - [InvalidOperation]: "operation out of bounds or size is invalid";
    - [RangeOutOfBounds lo hi]: "range [lo, hi] out of bounds" (version 1,
      [ExtractUint] only). *)

Inductive error : Type :=
  | OutOfRange
  | InvalidOperation
  | RangeOutOfBounds (lo hi : Z).

(** ** Computations over a mutable receiver

    A method mutates its receiver in place and returns; or the runtime
    panics on an index out of range.  [exec St A] threads the receiver and
    gives [None] for a panic. *)

Definition exec (St A : Type) : Type := St -> option (A * St).

Definition ret {St A} (a : A) : exec St A := fun s => Some (a, s).

Definition bind {St A B} (m : exec St A) (k : A -> exec St B) : exec St B :=
  fun s => match m s with
           | Some (a, s') => k a s'
           | None => None
           end.

Notation "'let!' x ':=' m 'in' k" := (bind m (fun x => k))
  (at level 10, x name, m at level 100, k at level 200).

(** [1 << bitPos] at type [byte] and at type [uint64]. *)
Definition shl8 (x n : Z) : Z := wrap8 (Z.shiftl x n).
Definition shl64 (x n : Z) : Z := wrap64 (Z.shiftl x n).

(** ** Version 2 *)

Module V2.

(** The two singletons [LittleEndian] and [BigEndian] implementing the
    [BitManipulator] interface; a field holds one of them. *)
Inductive Manipulator : Type := LittleEndian | BigEndian.

Record BitField : Type := mkBitField {
  data : list Z;
  size : Z;
  manipulator : Manipulator;
  err : option error
}.

Definition set_data (bf : BitField) (d : list Z) : BitField :=
  {| data := d; size := size bf; manipulator := manipulator bf; err := err bf |}.

Definition set_err (bf : BitField) (e : option error) : BitField :=
  {| data := data bf; size := size bf; manipulator := manipulator bf; err := e |}.

(** [bf.data[bytePos]] as an expression: panics outside the slice. *)
Definition load (bytePos : Z) : exec BitField Z :=
  fun bf => match data bf !! Z.to_nat bytePos with
            | Some b => Some (b, bf)
            | None => None
            end.

(** [bf.data[bytePos] op= m]: reads the byte, then stores the new one. *)
Definition update (bytePos : Z) (f : Z -> Z) : exec BitField unit :=
  fun bf => match data bf !! Z.to_nat bytePos with
            | Some b => Some (tt, set_data bf (<[Z.to_nat bytePos := f b]> (data bf)))
            | None => None
            end.

(** *** [v2/lsb.go] and [v2/msb.go]: construction *)

Definition littleEndian_New (n : Z) : BitField :=
  let byteSize := wrap64 (n + 7) / 8 in
  {| data := replicate (Z.to_nat byteSize) 0; size := n;
     manipulator := LittleEndian; err := None |}.

Definition bigEndian_New (n : Z) : BitField :=
  let byteSize := wrap64 (n + 7) / 8 in
  {| data := replicate (Z.to_nat byteSize) 0; size := n;
     manipulator := BigEndian; err := None |}.

Definition littleEndian_FromBytes (bytes : list Z) (size : Z) : BitField :=
  {| data := bytes; size := size; manipulator := LittleEndian; err := None |}.

Definition bigEndian_FromBytes (bytes : list Z) (size : Z) : BitField :=
  {| data := bytes; size := size; manipulator := BigEndian; err := None |}.

Definition iface_New (bm : Manipulator) (n : Z) : BitField :=
  match bm with
  | LittleEndian => littleEndian_New n
  | BigEndian => bigEndian_New n
  end.

Definition iface_FromBytes (bm : Manipulator) (bytes : list Z) (size : Z) : BitField :=
  match bm with
  | LittleEndian => littleEndian_FromBytes bytes size
  | BigEndian => bigEndian_FromBytes bytes size
  end.

(** *** Position mapping *)

Definition calcBitPosLE (bf : BitField) (pos : Z) : Z * Z * option error :=
  if size bf <=? pos then (0, 0, Some OutOfRange)
  else (pos / 8, pos mod 8, None).

Definition calcBitPosBE (bf : BitField) (pos : Z) : Z * Z * option error :=
  if size bf <=? pos then (0, 0, Some OutOfRange)
  else (pos / 8, 7 - pos mod 8, None).

(** *** Single-bit primitives, little-endian *)

Definition littleEndian_SetBit (pos : Z) : exec BitField (option error) :=
  fun bf => match calcBitPosLE bf pos with
            | (bytePos, bitPos, None) =>
                (let! _ := update bytePos (fun b => Z.lor b (shl8 1 bitPos)) in
                 ret None) bf
            | (_, _, Some e) => ret (Some e) bf
            end.

Definition littleEndian_ClearBit (pos : Z) : exec BitField (option error) :=
  fun bf => match calcBitPosLE bf pos with
            | (bytePos, bitPos, None) =>
                (let! _ := update bytePos (fun b => Z.ldiff b (shl8 1 bitPos)) in
                 ret None) bf
            | (_, _, Some e) => ret (Some e) bf
            end.

Definition littleEndian_ToggleBit (pos : Z) : exec BitField (option error) :=
  fun bf => match calcBitPosLE bf pos with
            | (bytePos, bitPos, None) =>
                (let! _ := update bytePos (fun b => Z.lxor b (shl8 1 bitPos)) in
                 ret None) bf
            | (_, _, Some e) => ret (Some e) bf
            end.

Definition littleEndian_TestBit (pos : Z) : exec BitField (bool * option error) :=
  fun bf => match calcBitPosLE bf pos with
            | (bytePos, bitPos, None) =>
                (let! b := load bytePos in
                 let value := Z.land b (shl8 1 bitPos) in
                 ret (0 <? value, None)) bf
            | (_, _, Some e) => ret (false, Some e) bf
            end.

(** *** Single-bit primitives, big-endian *)

Definition bigEndian_SetBit (pos : Z) : exec BitField (option error) :=
  fun bf => match calcBitPosBE bf pos with
            | (bytePos, bitPos, None) =>
                (let! _ := update bytePos (fun b => Z.lor b (shl8 1 bitPos)) in
                 ret None) bf
            | (_, _, Some e) => ret (Some e) bf
            end.

Definition bigEndian_ClearBit (pos : Z) : exec BitField (option error) :=
  fun bf => match calcBitPosBE bf pos with
            | (bytePos, bitPos, None) =>
                (let! _ := update bytePos (fun b => Z.ldiff b (shl8 1 bitPos)) in
                 ret None) bf
            | (_, _, Some e) => ret (Some e) bf
            end.

Definition bigEndian_ToggleBit (pos : Z) : exec BitField (option error) :=
  fun bf => match calcBitPosBE bf pos with
            | (bytePos, bitPos, None) =>
                (let! _ := update bytePos (fun b => Z.lxor b (shl8 1 bitPos)) in
                 ret None) bf
            | (_, _, Some e) => ret (Some e) bf
            end.

Definition bigEndian_TestBit (pos : Z) : exec BitField (bool * option error) :=
  fun bf => match calcBitPosBE bf pos with
            | (bytePos, bitPos, None) =>
                (let! b := load bytePos in
                 let value := Z.land b (shl8 1 bitPos) in
                 ret (0 <? value, None)) bf
            | (_, _, Some e) => ret (false, Some e) bf
            end.

(** *** Dynamic dispatch

    [iface_SetBit bm] is the method [SetBit] of the interface value [bm];
    [manipulator_SetBit] is the call [bf.manipulator.SetBit(bf, pos)]. *)

Definition iface_SetBit (bm : Manipulator) (pos : Z) : exec BitField (option error) :=
  match bm with
  | LittleEndian => littleEndian_SetBit pos
  | BigEndian => bigEndian_SetBit pos
  end.

Definition iface_ClearBit (bm : Manipulator) (pos : Z) : exec BitField (option error) :=
  match bm with
  | LittleEndian => littleEndian_ClearBit pos
  | BigEndian => bigEndian_ClearBit pos
  end.

Definition iface_ToggleBit (bm : Manipulator) (pos : Z) : exec BitField (option error) :=
  match bm with
  | LittleEndian => littleEndian_ToggleBit pos
  | BigEndian => bigEndian_ToggleBit pos
  end.

Definition iface_TestBit (bm : Manipulator) (pos : Z)
  : exec BitField (bool * option error) :=
  match bm with
  | LittleEndian => littleEndian_TestBit pos
  | BigEndian => bigEndian_TestBit pos
  end.

Definition manipulator_SetBit (pos : Z) : exec BitField (option error) :=
  fun bf => iface_SetBit (manipulator bf) pos bf.

Definition manipulator_ClearBit (pos : Z) : exec BitField (option error) :=
  fun bf => iface_ClearBit (manipulator bf) pos bf.

Definition manipulator_ToggleBit (pos : Z) : exec BitField (option error) :=
  fun bf => iface_ToggleBit (manipulator bf) pos bf.

Definition manipulator_TestBit (pos : Z) : exec BitField (bool * option error) :=
  fun bf => iface_TestBit (manipulator bf) pos bf.

(** *** Multi-bit groups, little-endian

    [for i := uint64(0); i < size; i++]: the loop runs [size] times, for
    [i = 0, 1, ..., size-1]; [n] counts the iterations left.  The counter
    stays below 64, so [i++] never wraps. *)

Fixpoint littleEndian_InsertUint64_loop (n : nat) (i offset value : Z)
  : exec BitField (option error) :=
  match n with
  | O => ret None
  | S n' =>
      let pos := wrap64 (offset + i) in
      let! e := (if Z.land (Z.shiftr value i) 1 =? 1
                 then manipulator_SetBit pos
                 else manipulator_ClearBit pos) in
      match e with
      | Some _ => ret e
      | None => littleEndian_InsertUint64_loop n' (i + 1) offset value
      end
  end.

Definition littleEndian_InsertUint64 (offset size value : Z)
  : exec BitField (option error) :=
  fun bf =>
    if (V2.size bf <? wrap64 (offset + size)) || (64 <? size)
    then ret (Some InvalidOperation) bf
    else littleEndian_InsertUint64_loop (Z.to_nat size) 0 offset value bf.

Fixpoint littleEndian_ExtractUint64_loop (n : nat) (i offset group : Z)
  : exec BitField (Z * option error) :=
  match n with
  | O => ret (group, None)
  | S n' =>
      let! r := manipulator_TestBit (wrap64 (offset + i)) in
      match r with
      | (_, Some e) => ret (0, Some e)
      | (bit, None) =>
          let group' := if (bit : bool) then Z.lor group (shl64 1 i) else group in
          littleEndian_ExtractUint64_loop n' (i + 1) offset group'
      end
  end.

Definition littleEndian_ExtractUint64 (offset size : Z)
  : exec BitField (Z * option error) :=
  fun bf =>
    if (V2.size bf <? wrap64 (offset + size)) || (64 <? size)
    then ret (0, Some InvalidOperation) bf
    else littleEndian_ExtractUint64_loop (Z.to_nat size) 0 offset 0 bf.

(** *** Multi-bit groups, big-endian

    [for i := size; i > 0; i--]: the loop runs for
    [i = size, size-1, ..., 1]. *)

Fixpoint bigEndian_InsertUint64_loop (i : nat) (offset size value : Z)
  : exec BitField (option error) :=
  match i with
  | O => ret None
  | S i' =>
      let pos := wrap64 (offset + Z.of_nat i - 1) in
      let! e := (if Z.land (Z.shiftr value (size - Z.of_nat i)) 1 =? 1
                 then manipulator_SetBit pos
                 else manipulator_ClearBit pos) in
      match e with
      | Some _ => ret e
      | None => bigEndian_InsertUint64_loop i' offset size value
      end
  end.

Definition bigEndian_InsertUint64 (offset size value : Z)
  : exec BitField (option error) :=
  fun bf =>
    if (V2.size bf <? wrap64 (offset + size)) || (64 <? size)
    then ret (Some InvalidOperation) bf
    else bigEndian_InsertUint64_loop (Z.to_nat size) offset size value bf.

Fixpoint bigEndian_ExtractUint64_loop (i : nat) (offset size group : Z)
  : exec BitField (Z * option error) :=
  match i with
  | O => ret (group, None)
  | S i' =>
      let! r := manipulator_TestBit (wrap64 (offset + Z.of_nat i - 1)) in
      match r with
      | (_, Some e) => ret (0, Some e)
      | (bit, None) =>
          let group' := if (bit : bool)
                        then Z.lor group (shl64 1 (size - Z.of_nat i))
                        else group in
          bigEndian_ExtractUint64_loop i' offset size group'
      end
  end.

Definition bigEndian_ExtractUint64 (offset size : Z)
  : exec BitField (Z * option error) :=
  fun bf =>
    if (V2.size bf <? wrap64 (offset + size)) || (64 <? size)
    then ret (0, Some InvalidOperation) bf
    else bigEndian_ExtractUint64_loop (Z.to_nat size) offset size 0 bf.

Definition iface_InsertUint64 (bm : Manipulator) (offset size value : Z)
  : exec BitField (option error) :=
  match bm with
  | LittleEndian => littleEndian_InsertUint64 offset size value
  | BigEndian => bigEndian_InsertUint64 offset size value
  end.

Definition iface_ExtractUint64 (bm : Manipulator) (offset size : Z)
  : exec BitField (Z * option error) :=
  match bm with
  | LittleEndian => littleEndian_ExtractUint64 offset size
  | BigEndian => bigEndian_ExtractUint64 offset size
  end.

Definition manipulator_InsertUint64 (offset size value : Z)
  : exec BitField (option error) :=
  fun bf => iface_InsertUint64 (manipulator bf) offset size value bf.

Definition manipulator_ExtractUint64 (offset size : Z)
  : exec BitField (Z * option error) :=
  fun bf => iface_ExtractUint64 (manipulator bf) offset size bf.

(** *** [v2/bitfield.go]: the container, with its stored error *)

Definition Bytes (bf : BitField) : list Z := data bf.
Definition Size (bf : BitField) : Z := size bf.
Definition Error (bf : BitField) : option error := err bf.

(** [if bf.err == nil { bf.err = op } ; return bf.err] *)
Definition latched (op : exec BitField (option error)) : exec BitField (option error) :=
  fun bf => match err bf with
            | None => match op bf with
                      | Some (e, bf') => Some (e, set_err bf' e)
                      | None => None
                      end
            | Some e => Some (Some e, bf)
            end.

Definition SetBit (pos : Z) : exec BitField (option error) :=
  latched (manipulator_SetBit pos).

Definition ClearBit (pos : Z) : exec BitField (option error) :=
  latched (manipulator_ClearBit pos).

Definition ToggleBit (pos : Z) : exec BitField (option error) :=
  latched (manipulator_ToggleBit pos).

Definition TestBit (pos : Z) : exec BitField (bool * option error) :=
  manipulator_TestBit pos.

Definition InsertUint64 (offset size value : Z) : exec BitField (option error) :=
  latched (manipulator_InsertUint64 offset size value).

Definition ExtractUint64 (offset size : Z) : exec BitField (Z * option error) :=
  manipulator_ExtractUint64 offset size.

(** *** The earlier container of version 2: no stored error, every method
    forwards to the strategy. *)

Module Plain.

Definition SetBit (pos : Z) : exec BitField (option error) :=
  manipulator_SetBit pos.

Definition ClearBit (pos : Z) : exec BitField (option error) :=
  manipulator_ClearBit pos.

Definition ToggleBit (pos : Z) : exec BitField (option error) :=
  manipulator_ToggleBit pos.

Definition TestBit (pos : Z) : exec BitField (bool * option error) :=
  manipulator_TestBit pos.

Definition InsertUint64 (offset size value : Z) : exec BitField (option error) :=
  manipulator_InsertUint64 offset size value.

Definition ExtractUint64 (offset size : Z) : exec BitField (Z * option error) :=
  manipulator_ExtractUint64 offset size.

End Plain.

End V2.

(** ** Version 1 ([bitfield.go])

    [uint] is taken at 64 bits, its width on the 64-bit targets. *)

Module V1.

Record BitField : Type := mkBitField {
  bits : list Z;
  sz : Z
}.

Definition set_bits (bf : BitField) (d : list Z) : BitField :=
  {| bits := d; sz := sz bf |}.

Definition load (byteIndex : Z) : exec BitField Z :=
  fun bf => match bits bf !! Z.to_nat byteIndex with
            | Some b => Some (b, bf)
            | None => None
            end.

Definition update (byteIndex : Z) (f : Z -> Z) : exec BitField unit :=
  fun bf => match bits bf !! Z.to_nat byteIndex with
            | Some b => Some (tt, set_bits bf (<[Z.to_nat byteIndex := f b]> (bits bf)))
            | None => None
            end.

(** The interface [BitManipulator] of version 1: four methods on an object
    whose state is reached through the receiver. *)
Record BitManipulator : Type := mkBitManipulator {
  man_SetBit : Z -> exec BitField (option error);
  man_ClearBit : Z -> exec BitField (option error);
  man_ToggleBit : Z -> exec BitField (option error);
  man_TestBit : Z -> exec BitField (bool * option error)
}.

Definition New (n : Z) : BitField :=
  let size := wrap64 (n + 7) / 8 in
  {| bits := replicate (Z.to_nat size) 0; sz := n |}.

Definition Bytes (bf : BitField) : list Z := bits bf.

Definition FromBytes (bytes : list Z) : BitField :=
  let bf := New (wrap64 (Z.of_nat (length bytes) * 8)) in
  set_bits bf (take (length (bits bf)) bytes ++ drop (length bytes) (bits bf)).

Definition calculateBitPosition (bf : BitField) (pos : Z) : Z * Z * option error :=
  if sz bf <=? pos then (0, 0, Some OutOfRange)
  else (pos / 8, pos mod 8, None).

Definition SetBit (pos : Z) : exec BitField (option error) :=
  fun bf => match calculateBitPosition bf pos with
            | (_, _, Some e) => ret (Some e) bf
            | (byteIndex, bitPosition, None) =>
                (let! _ := update byteIndex (fun b => Z.lor b (shl8 1 bitPosition)) in
                 ret None) bf
            end.

(** [&= ^(1 << bitPosition)]: and with the complement of the mask. *)
Definition ClearBit (pos : Z) : exec BitField (option error) :=
  fun bf => match calculateBitPosition bf pos with
            | (_, _, Some e) => ret (Some e) bf
            | (byteIndex, bitPosition, None) =>
                (let! _ := update byteIndex
                             (fun b => Z.land b (wrap8 (Z.lnot (shl8 1 bitPosition)))) in
                 ret None) bf
            end.

Definition ToggleBit (pos : Z) : exec BitField (option error) :=
  fun bf => match calculateBitPosition bf pos with
            | (_, _, Some e) => ret (Some e) bf
            | (byteIndex, bitPosition, None) =>
                (let! _ := update byteIndex (fun b => Z.lxor b (shl8 1 bitPosition)) in
                 ret None) bf
            end.

Definition TestBit (pos : Z) : exec BitField (bool * option error) :=
  fun bf => match calculateBitPosition bf pos with
            | (_, _, Some e) => ret (false, Some e) bf
            | (byteIndex, bitPosition, None) =>
                (let! b := load byteIndex in
                 ret (negb (Z.land b (shl8 1 bitPosition) =? 0), None)) bf
            end.

(** The field itself as a [BitManipulator] ([var _ BitManipulator = &BitField{}]). *)
Definition self : BitManipulator :=
  {| man_SetBit := SetBit; man_ClearBit := ClearBit;
     man_ToggleBit := ToggleBit; man_TestBit := TestBit |}.

Fixpoint InsertUint_loop (man : BitManipulator) (n : nat) (i offset value : Z)
  : exec BitField (option error) :=
  match n with
  | O => ret None
  | S n' =>
      let pos := wrap64 (offset + i) in
      let! e := (if Z.land (Z.shiftr value i) 1 =? 1
                 then man_SetBit man pos
                 else man_ClearBit man pos) in
      match e with
      | Some _ => ret e
      | None => InsertUint_loop man n' (i + 1) offset value
      end
  end.

Definition InsertUint (man : BitManipulator) (offset size value : Z)
  : exec BitField (option error) :=
  fun bf =>
    if (sz bf <? wrap64 (offset + size)) || (64 <? size)
    then ret (Some InvalidOperation) bf
    else InsertUint_loop man (Z.to_nat size) 0 offset value bf.

(** The bound [size > 64] is not tested here, so the counter can reach 64
    and beyond, where [1 << i] is 0 at type [uint64].  The counter stays
    below [size], so [i++] does not wrap. *)
Fixpoint ExtractUint_loop (man : BitManipulator) (n : nat) (i offset group : Z)
  : exec BitField (Z * option error) :=
  match n with
  | O => ret (group, None)
  | S n' =>
      let! r := man_TestBit man (wrap64 (offset + i)) in
      match r with
      | (_, Some e) => ret (0, Some e)
      | (bit, None) =>
          let group' := if (bit : bool) then Z.lor group (shl64 1 i) else group in
          ExtractUint_loop man n' (i + 1) offset group'
      end
  end.

Definition ExtractUint (man : BitManipulator) (offset size : Z)
  : exec BitField (Z * option error) :=
  fun bf =>
    if sz bf <? wrap64 (offset + size)
    then ret (0, Some (RangeOutOfBounds offset (wrap64 (offset + size)))) bf
    else ExtractUint_loop man (Z.to_nat size) 0 offset 0 bf.

End V1.

(** * Vocabulary of the specification *)

(** The in-byte bit index of a logical position under each ordering, and
    the bit a buffer holds at a logical position.  Every pair of a byte
    index and an in-byte bit index in [0, 8) is the image of exactly one
    position, so [bit_at] over all positions describes the whole buffer,
    the padding bits of the last byte included. *)
Definition bitIndex (bm : V2.Manipulator) (pos : Z) : Z :=
  match bm with
  | V2.LittleEndian => pos mod 8
  | V2.BigEndian => 7 - pos mod 8
  end.

Definition bit_at (bm : V2.Manipulator) (d : list Z) (pos : Z) : bool :=
  match d !! Z.to_nat (pos / 8) with
  | Some b => Z.testbit b (bitIndex bm pos)
  | None => false
  end.

(** The buffer after [d[pos/8] = op(d[pos/8], 1 << bitIndex)]. *)
Definition mask_byte (bm : V2.Manipulator) (op : Z -> Z -> Z) (d : list Z) (pos : Z)
  : list Z :=
  match d !! Z.to_nat (pos / 8) with
  | Some b => <[Z.to_nat (pos / 8) := op b (2 ^ bitIndex bm pos)]> d
  | None => d
  end.

(** The buffer holds every declared bit. *)
Definition covers (bf : V2.BitField) : Prop :=
  V2.size bf <= 8 * Z.of_nat (length (V2.data bf)).

(** A field as the constructors [New] build it, as far as the operations
    need: a [uint64] size, a buffer that holds every declared bit, and
    bytes that are bytes.  The invariant of the data model,
    [len(buffer) = ceil(bit_count / 8)], implies [covers]. *)
Definition well_formed (bf : V2.BitField) : Prop :=
  uint64_ok (V2.size bf) /\ covers bf /\ Forall byte_ok (V2.data bf).

(** The invariant of the data model: [len(buffer) = ceil(bit_count / 8)]. *)
Definition size_invariant (bf : V2.BitField) : Prop :=
  Z.of_nat (length (V2.data bf)) = (V2.size bf + 7) / 8.

(** [value & ((1 << size) - 1)] at type [uint64]. *)
Definition low_bits (size value : Z) : Z :=
  Z.land value (wrap64 (shl64 1 size - 1)).

(** The value bit that an in-bounds insert stores at logical position [q]
    of the group [offset, offset + size). *)
Definition group_bit (bm : V2.Manipulator) (offset size value q : Z) : bool :=
  match bm with
  | V2.LittleEndian => Z.testbit value (q - offset)
  | V2.BigEndian => Z.testbit value (size - 1 - (q - offset))
  end.

(** ** Call sequences on the container of [v2/bitfield.go] *)

Inductive call : Type :=
  | CallSetBit (pos : Z)
  | CallClearBit (pos : Z)
  | CallToggleBit (pos : Z)
  | CallInsertUint64 (offset size value : Z)
  | CallTestBit (pos : Z)
  | CallExtractUint64 (offset size : Z).

Definition mutating (c : call) : bool :=
  match c with
  | CallSetBit _ | CallClearBit _ | CallToggleBit _ | CallInsertUint64 _ _ _ => true
  | CallTestBit _ | CallExtractUint64 _ _ => false
  end.

(** What a call returns to its caller. *)
Inductive returned : Type :=
  | RetError (e : option error)
  | RetBool (b : bool) (e : option error)
  | RetUint (v : Z) (e : option error).

Definition perform (c : call) : exec V2.BitField returned :=
  match c with
  | CallSetBit pos => let! e := V2.SetBit pos in ret (RetError e)
  | CallClearBit pos => let! e := V2.ClearBit pos in ret (RetError e)
  | CallToggleBit pos => let! e := V2.ToggleBit pos in ret (RetError e)
  | CallInsertUint64 offset size value =>
      let! e := V2.InsertUint64 offset size value in ret (RetError e)
  | CallTestBit pos => let! r := V2.TestBit pos in ret (RetBool (fst r) (snd r))
  | CallExtractUint64 offset size =>
      let! r := V2.ExtractUint64 offset size in ret (RetUint (fst r) (snd r))
  end.

Fixpoint run (cs : list call) : exec V2.BitField (list returned) :=
  match cs with
  | [] => ret []
  | c :: cs' => let! r := perform c in
                let! rs := run cs' in
                ret (r :: rs)
  end.

(** An outcome with the stored error of its final state replaced. *)
Definition with_err {A} (e : option error) (r : option (A * V2.BitField))
  : option (A * V2.BitField) :=
  match r with
  | Some (a, bf) => Some (a, V2.set_err bf e)
  | None => None
  end.

(** ** Version 1 seen from version 2 *)

Definition to_v2 (bf : V1.BitField) : V2.BitField :=
  {| V2.data := V1.bits bf; V2.size := V1.sz bf;
     V2.manipulator := V2.LittleEndian; V2.err := None |}.

Definition lift_v2 {A} (r : option (A * V1.BitField)) : option (A * V2.BitField) :=
  match r with
  | Some (a, bf) => Some (a, to_v2 bf)
  | None => None
  end.

(** ** Further vocabulary *)

(** The position of the other ordering that names the same physical bit. *)
Definition mirror (pos : Z) : Z := 8 * (pos / 8) + (7 - pos mod 8).

(** The first error a mutating call of a sequence returned, if any. *)
Fixpoint first_failure (cs : list call) (rs : list returned) : option error :=
  match cs, rs with
  | c :: cs', r :: rs' =>
      match mutating c, r with
      | true, RetError (Some e) => Some e
      | _, _ => first_failure cs' rs'
      end
  | _, _ => None
  end.

(** A manipulator of version 1 whose [SetBit] always fails with [e] and
    whose other methods are the field's own: the fault injection of the
    test suite ([MockBitManipulator] with [SetBitFunc] returning an
    error). *)
Definition faulty_SetBit (e : error) : V1.BitManipulator :=
  {| V1.man_SetBit := fun _ => ret (Some e);
     V1.man_ClearBit := V1.ClearBit;
     V1.man_ToggleBit := V1.ToggleBit;
     V1.man_TestBit := V1.TestBit |}.

(** What no call changes: the declared size, the strategy, the length of
    the buffer; and bytes stay bytes. *)
Definition same_shape (bf bf' : V2.BitField) : Prop :=
  V2.size bf' = V2.size bf /\ V2.manipulator bf' = V2.manipulator bf
  /\ length (V2.data bf') = length (V2.data bf)
  /\ (Forall byte_ok (V2.data bf) -> Forall byte_ok (V2.data bf')).

(** The logical position that holds bit [j] of a group. *)
Definition group_position (bm : V2.Manipulator) (offset size0 j : Z) : Z :=
  match bm with
  | V2.LittleEndian => offset + j
  | V2.BigEndian => offset + size0 - 1 - j
  end.

(** * Properties *)

(** Case analysis on every integer comparison of the goal. *)
Ltac case_cmp :=
  repeat match goal with
         | |- context [?a <=? ?b] => destruct (Z.leb_spec a b)
         | |- context [?a <? ?b] => destruct (Z.ltb_spec a b)
         | |- context [?a =? ?b] => destruct (Z.eqb_spec a b)
         end;
  simpl; try reflexivity; try lia.

(** ** Bit arithmetic *)

Section Bits.

Lemma shl8_pow2 k : 0 <= k < 8 -> shl8 1 k = 2 ^ k.
Proof.
  intros Hk. unfold shl8, wrap8. rewrite Z.shiftl_1_l.
  apply Z.mod_small. split; [lia|]. apply Z.pow_lt_mono_r; lia.
Qed.

Lemma shl64_pow2 k : 0 <= k < 64 -> shl64 1 k = 2 ^ k.
Proof.
  intros Hk. unfold shl64, wrap64. rewrite Z.shiftl_1_l.
  apply Z.mod_small. split; [lia|]. apply Z.pow_lt_mono_r; lia.
Qed.

Lemma testbit_pow2 k j : 0 <= k -> Z.testbit (2 ^ k) j = (j =? k).
Proof.
  intros Hk. rewrite Z.pow2_bits_eqb by lia. apply Z.eqb_sym.
Qed.

Lemma testbit_lor_pow2 b k j :
  0 <= k -> Z.testbit (Z.lor b (2 ^ k)) j = if j =? k then true else Z.testbit b j.
Proof.
  intros Hk. rewrite Z.lor_spec, testbit_pow2 by lia.
  destruct (j =? k); [apply orb_true_r | apply orb_false_r].
Qed.

Lemma testbit_ldiff_pow2 b k j :
  0 <= k -> Z.testbit (Z.ldiff b (2 ^ k)) j = if j =? k then false else Z.testbit b j.
Proof.
  intros Hk. rewrite Z.ldiff_spec, testbit_pow2 by lia.
  destruct (j =? k); [apply andb_false_r | apply andb_true_r].
Qed.

Lemma testbit_lxor_pow2 b k j :
  0 <= k ->
  Z.testbit (Z.lxor b (2 ^ k)) j = if j =? k then negb (Z.testbit b j) else Z.testbit b j.
Proof.
  intros Hk. rewrite Z.lxor_spec, testbit_pow2 by lia.
  destruct (j =? k); [apply xorb_true_r | apply xorb_false_r].
Qed.

Lemma land_pow2 b k : 0 <= k -> Z.land b (2 ^ k) = if Z.testbit b k then 2 ^ k else 0.
Proof.
  intros Hk. apply Z.bits_inj'. intros j Hj.
  rewrite Z.land_spec, testbit_pow2 by lia.
  destruct (Z.eqb_spec j k) as [->|Hne].
  - destruct (Z.testbit b k); rewrite ?testbit_pow2, ?Z.bits_0, ?Z.eqb_refl by lia;
      reflexivity.
  - rewrite andb_false_r.
    destruct (Z.testbit b k); rewrite ?testbit_pow2, ?Z.bits_0 by lia;
      [symmetry; apply Z.eqb_neq; assumption | reflexivity].
Qed.

(** [b & (1 << k) > 0] and [b & (1 << k) != 0] both read bit [k] of [b]. *)
Lemma mask_positive b k : 0 <= k -> (0 <? Z.land b (2 ^ k)) = Z.testbit b k.
Proof.
  intros Hk. rewrite land_pow2 by lia.
  assert (0 < 2 ^ k) by (apply Z.pow_pos_nonneg; lia).
  destruct (Z.testbit b k); [apply Z.ltb_lt; lia | reflexivity].
Qed.

Lemma mask_nonzero b k : 0 <= k -> negb (Z.land b (2 ^ k) =? 0) = Z.testbit b k.
Proof.
  intros Hk. rewrite land_pow2 by lia.
  assert (0 < 2 ^ k) by (apply Z.pow_pos_nonneg; lia).
  destruct (Z.testbit b k); [|reflexivity].
  destruct (Z.eqb_spec (2 ^ k) 0); [lia | reflexivity].
Qed.

(** [(value >> i) & 1 == 1] reads bit [i] of [value]. *)
Lemma shift_and_one value i :
  0 <= i -> (Z.land (Z.shiftr value i) 1 =? 1) = Z.testbit value i.
Proof.
  intros Hi. rewrite Z.testbit_odd.
  change 1 with (Z.ones 1) at 1. rewrite Z.land_ones by lia.
  change (2 ^ 1) with 2. rewrite Zmod_odd.
  destruct (Z.odd (Z.shiftr value i)); reflexivity.
Qed.

Lemma byte_ok_high b j : byte_ok b -> 8 <= j -> Z.testbit b j = false.
Proof.
  intros [H0 H1] Hj. rewrite <- (Z.mod_small b (2 ^ 8)) by lia.
  apply Z.mod_pow2_bits_high. lia.
Qed.

Lemma byte_ok_intro b :
  0 <= b -> (forall j, 8 <= j -> Z.testbit b j = false) -> byte_ok b.
Proof.
  intros H0 Hhigh. unfold byte_ok. split; [assumption|].
  assert (Heq : b = b mod 2 ^ 8).
  { apply Z.bits_inj'. intros j Hj.
    destruct (Z_lt_le_dec j 8).
    - rewrite Z.mod_pow2_bits_low by lia. reflexivity.
    - rewrite Z.mod_pow2_bits_high by lia. apply Hhigh. lia. }
  rewrite Heq. apply Z.mod_pos_bound. lia.
Qed.

Lemma byte_ok_lor b k : byte_ok b -> 0 <= k < 8 -> byte_ok (Z.lor b (2 ^ k)).
Proof.
  intros Hb Hk. apply byte_ok_intro.
  - apply Z.lor_nonneg. split; [apply Hb | apply Z.pow_nonneg; lia].
  - intros j Hj. rewrite testbit_lor_pow2 by lia.
    destruct (Z.eqb_spec j k); [lia | apply byte_ok_high; assumption].
Qed.

Lemma byte_ok_ldiff b k : byte_ok b -> 0 <= k < 8 -> byte_ok (Z.ldiff b (2 ^ k)).
Proof.
  intros Hb Hk. apply byte_ok_intro.
  - apply Z.ldiff_nonneg. left. apply Hb.
  - intros j Hj. rewrite testbit_ldiff_pow2 by lia.
    destruct (Z.eqb_spec j k); [reflexivity | apply byte_ok_high; assumption].
Qed.

Lemma byte_ok_lxor b k : byte_ok b -> 0 <= k < 8 -> byte_ok (Z.lxor b (2 ^ k)).
Proof.
  intros Hb Hk. apply byte_ok_intro.
  - apply Z.lxor_nonneg. split; intros _; [apply Z.pow_nonneg; lia | apply Hb].
  - intros j Hj. rewrite testbit_lxor_pow2 by lia.
    destruct (Z.eqb_spec j k); [lia | apply byte_ok_high; assumption].
Qed.

(** On a byte, and-not with a mask is and with the mask's complement at
    byte width: [b &^ m] is [b & ^m]. *)
Lemma ldiff_land_lnot8 b k :
  byte_ok b -> 0 <= k < 8 -> Z.land b (wrap8 (Z.lnot (2 ^ k))) = Z.ldiff b (2 ^ k).
Proof.
  intros Hb Hk. apply Z.bits_inj'. intros j Hj.
  rewrite Z.land_spec, Z.ldiff_spec. unfold wrap8.
  destruct (Z_lt_le_dec j 8).
  - rewrite Z.mod_pow2_bits_low by lia. rewrite Z.lnot_spec by lia. reflexivity.
  - rewrite (byte_ok_high b j) by assumption. reflexivity.
Qed.

End Bits.

(** ** Single-bit primitives on the buffer *)

Section SingleBit.

Import V2.

Lemma bitIndex_range bm pos : 0 <= bitIndex bm pos < 8.
Proof.
  pose proof (Z.mod_pos_bound pos 8 ltac:(lia)).
  destruct bm; simpl; lia.
Qed.

Lemma position_injective bm p q :
  0 <= p -> 0 <= q -> p / 8 = q / 8 -> bitIndex bm p = bitIndex bm q -> p = q.
Proof.
  intros Hp Hq Hdiv Hidx.
  pose proof (Z.div_mod p 8 ltac:(lia)). pose proof (Z.div_mod q 8 ltac:(lia)).
  destruct bm; simpl in Hidx; lia.
Qed.

Lemma lookup_byte (d : list Z) pos :
  0 <= pos < 8 * Z.of_nat (length d) -> is_Some (d !! Z.to_nat (pos / 8)).
Proof.
  intros Hpos. apply lookup_lt_is_Some.
  pose proof (Z.div_mod pos 8 ltac:(lia)).
  pose proof (Z.mod_pos_bound pos 8 ltac:(lia)).
  assert (0 <= pos / 8) by (apply Z.div_pos; lia). lia.
Qed.

Lemma lookup_byte_none (d : list Z) pos :
  8 * Z.of_nat (length d) <= pos -> d !! Z.to_nat (pos / 8) = None.
Proof.
  intros Hpos. apply lookup_ge_None.
  pose proof (Z.div_mod pos 8 ltac:(lia)).
  pose proof (Z.mod_pos_bound pos 8 ltac:(lia)). lia.
Qed.

Lemma length_mask_byte bm op d pos : length (mask_byte bm op d pos) = length d.
Proof.
  unfold mask_byte. destruct (d !! _); [apply length_insert | reflexivity].
Qed.

(** A mask operation changes the bit at its position and no other bit of
    the buffer. *)
Lemma bit_at_mask_byte bm op (g : bool -> bool) d pos q :
  (forall b k j, 0 <= k ->
      Z.testbit (op b (2 ^ k)) j = if j =? k then g (Z.testbit b j) else Z.testbit b j) ->
  0 <= pos < 8 * Z.of_nat (length d) -> 0 <= q ->
  bit_at bm (mask_byte bm op d pos) q
  = if q =? pos then g (bit_at bm d q) else bit_at bm d q.
Proof.
  intros Hop Hpos Hq. unfold bit_at, mask_byte.
  destruct (lookup_byte d pos Hpos) as [b Hb]. rewrite Hb.
  pose proof (bitIndex_range bm pos) as Hk.
  destruct (Z.eq_dec (q / 8) (pos / 8)) as [Hbyte|Hbyte].
  - rewrite Hbyte, list_lookup_insert_eq by (apply lookup_lt_is_Some; eauto).
    rewrite Hb, Hop by lia.
    destruct (Z.eqb_spec q pos) as [->|Hne].
    + rewrite Z.eqb_refl. reflexivity.
    + destruct (Z.eqb_spec (bitIndex bm q) (bitIndex bm pos)) as [Hidx|]; [|reflexivity].
      exfalso. apply Hne. apply (position_injective bm); lia.
  - rewrite list_lookup_insert_ne.
    + destruct (Z.eqb_spec q pos) as [->|]; [congruence | reflexivity].
    + intros Heq. apply Hbyte. apply Z2Nat.inj in Heq; [congruence | |];
        apply Z.div_pos; lia.
Qed.

Lemma bit_at_set bm d pos q :
  0 <= pos < 8 * Z.of_nat (length d) -> 0 <= q ->
  bit_at bm (mask_byte bm Z.lor d pos) q = if q =? pos then true else bit_at bm d q.
Proof.
  intros. apply (bit_at_mask_byte bm Z.lor (fun _ => true)); try assumption.
  intros. apply testbit_lor_pow2. assumption.
Qed.

Lemma bit_at_clear bm d pos q :
  0 <= pos < 8 * Z.of_nat (length d) -> 0 <= q ->
  bit_at bm (mask_byte bm Z.ldiff d pos) q = if q =? pos then false else bit_at bm d q.
Proof.
  intros. apply (bit_at_mask_byte bm Z.ldiff (fun _ => false)); try assumption.
  intros. apply testbit_ldiff_pow2. assumption.
Qed.

Lemma bit_at_toggle bm d pos q :
  0 <= pos < 8 * Z.of_nat (length d) -> 0 <= q ->
  bit_at bm (mask_byte bm Z.lxor d pos) q
  = if q =? pos then negb (bit_at bm d q) else bit_at bm d q.
Proof.
  intros. apply (bit_at_mask_byte bm Z.lxor negb); try assumption.
  intros. apply testbit_lxor_pow2. assumption.
Qed.

Lemma bytes_ok_mask_byte bm op d pos :
  (forall b k, byte_ok b -> 0 <= k < 8 -> byte_ok (op b (2 ^ k))) ->
  Forall byte_ok d -> Forall byte_ok (mask_byte bm op d pos).
Proof.
  intros Hop Hd. unfold mask_byte.
  destruct (d !! Z.to_nat (pos / 8)) as [b|] eqn:Hb; [|assumption].
  apply Forall_insert; [assumption|].
  apply Hop; [|apply bitIndex_range].
  eapply Forall_lookup_1; eauto.
Qed.

(** Applying the same mask operation twice at one position. *)
Lemma mask_byte_twice bm op (d : list Z) pos b :
  d !! Z.to_nat (pos / 8) = Some b ->
  mask_byte bm op (mask_byte bm op d pos) pos
  = <[Z.to_nat (pos / 8) := op (op b (2 ^ bitIndex bm pos)) (2 ^ bitIndex bm pos)]> d.
Proof.
  intros Hb. unfold mask_byte. rewrite Hb.
  rewrite list_lookup_insert_eq by (apply lookup_lt_is_Some; eauto).
  apply list_insert_insert_eq.
Qed.

Lemma mask_byte_once bm op (d : list Z) pos b :
  d !! Z.to_nat (pos / 8) = Some b ->
  mask_byte bm op d pos = <[Z.to_nat (pos / 8) := op b (2 ^ bitIndex bm pos)]> d.
Proof. intros Hb. unfold mask_byte. rewrite Hb. reflexivity. Qed.

Lemma ldiff_twice b m : Z.ldiff (Z.ldiff b m) m = Z.ldiff b m.
Proof.
  apply Z.bits_inj'. intros j Hj. rewrite !Z.ldiff_spec.
  destruct (Z.testbit b j), (Z.testbit m j); reflexivity.
Qed.

Lemma lor_twice b m : Z.lor (Z.lor b m) m = Z.lor b m.
Proof. rewrite <- Z.lor_assoc, Z.lor_diag. reflexivity. Qed.

Lemma lxor_twice b m : Z.lxor (Z.lxor b m) m = b.
Proof. rewrite Z.lxor_assoc, Z.lxor_nilpotent, Z.lxor_0_r. reflexivity. Qed.

End SingleBit.

(** ** The strategies' single-bit methods: three regimes

    At [pos >= size] the method returns [OutOfRange] and touches nothing; at
    [pos < size] inside the buffer it applies its mask; at [pos < size]
    beyond the buffer the index expression panics. *)

Section Regimes.

Import V2.

Variable bm : Manipulator.

Ltac unfold_ops :=
  unfold iface_SetBit, iface_ClearBit, iface_ToggleBit, iface_TestBit,
    littleEndian_SetBit, littleEndian_ClearBit,
    littleEndian_ToggleBit, littleEndian_TestBit, bigEndian_SetBit,
    bigEndian_ClearBit, bigEndian_ToggleBit, bigEndian_TestBit,
    calcBitPosLE, calcBitPosBE, bind, ret, update, load.

Ltac case_range :=
  match goal with |- context [?a <=? ?b] => destruct (Z.leb_spec a b) end.

Ltac out_of_range :=
  unfold_ops; destruct bm; (case_range; [reflexivity | lia]).

Lemma SetBit_out_of_range bf pos :
  size bf <= pos -> iface_SetBit bm pos bf = Some (Some OutOfRange, bf).
Proof using Type. intros H. out_of_range. Qed.

Lemma ClearBit_out_of_range bf pos :
  size bf <= pos -> iface_ClearBit bm pos bf = Some (Some OutOfRange, bf).
Proof using Type. intros H. out_of_range. Qed.

Lemma ToggleBit_out_of_range bf pos :
  size bf <= pos -> iface_ToggleBit bm pos bf = Some (Some OutOfRange, bf).
Proof using Type. intros H. out_of_range. Qed.

Lemma TestBit_out_of_range bf pos :
  size bf <= pos -> iface_TestBit bm pos bf = Some ((false, Some OutOfRange), bf).
Proof using Type. intros H. out_of_range. Qed.

Ltac in_buffer Hbuf :=
  let b := fresh "b" in
  let Hb := fresh "Hb" in
  destruct (lookup_byte _ _ Hbuf) as [b Hb];
  unfold_ops; unfold mask_byte, bit_at;
  destruct bm; simpl bitIndex;
  (case_range; [lia|]);
  rewrite Hb, shl8_pow2 by (apply (bitIndex_range LittleEndian) ||
                            apply (bitIndex_range BigEndian)).

Lemma SetBit_in_buffer bf pos :
  pos < size bf -> 0 <= pos < 8 * Z.of_nat (length (data bf)) ->
  iface_SetBit bm pos bf = Some (None, set_data bf (mask_byte bm Z.lor (data bf) pos)).
Proof using Type. intros Hsize Hbuf. in_buffer Hbuf; reflexivity. Qed.

Lemma ClearBit_in_buffer bf pos :
  pos < size bf -> 0 <= pos < 8 * Z.of_nat (length (data bf)) ->
  iface_ClearBit bm pos bf = Some (None, set_data bf (mask_byte bm Z.ldiff (data bf) pos)).
Proof using Type. intros Hsize Hbuf. in_buffer Hbuf; reflexivity. Qed.

Lemma ToggleBit_in_buffer bf pos :
  pos < size bf -> 0 <= pos < 8 * Z.of_nat (length (data bf)) ->
  iface_ToggleBit bm pos bf = Some (None, set_data bf (mask_byte bm Z.lxor (data bf) pos)).
Proof using Type. intros Hsize Hbuf. in_buffer Hbuf; reflexivity. Qed.

Lemma TestBit_in_buffer bf pos :
  pos < size bf -> 0 <= pos < 8 * Z.of_nat (length (data bf)) ->
  iface_TestBit bm pos bf = Some ((bit_at bm (data bf) pos, None), bf).
Proof using Type.
  intros Hsize Hbuf. in_buffer Hbuf;
    rewrite mask_positive by (apply (bitIndex_range LittleEndian) ||
                              apply (bitIndex_range BigEndian));
    reflexivity.
Qed.

Ltac beyond_buffer Hbuf :=
  unfold_ops; destruct bm; (case_range; [lia|]);
  rewrite (lookup_byte_none _ _ Hbuf); reflexivity.

Lemma SetBit_beyond_buffer bf pos :
  pos < size bf -> 8 * Z.of_nat (length (data bf)) <= pos ->
  iface_SetBit bm pos bf = None.
Proof using Type. intros Hsize Hbuf. beyond_buffer Hbuf. Qed.

Lemma ClearBit_beyond_buffer bf pos :
  pos < size bf -> 8 * Z.of_nat (length (data bf)) <= pos ->
  iface_ClearBit bm pos bf = None.
Proof using Type. intros Hsize Hbuf. beyond_buffer Hbuf. Qed.

Lemma ToggleBit_beyond_buffer bf pos :
  pos < size bf -> 8 * Z.of_nat (length (data bf)) <= pos ->
  iface_ToggleBit bm pos bf = None.
Proof using Type. intros Hsize Hbuf. beyond_buffer Hbuf. Qed.

Lemma TestBit_beyond_buffer bf pos :
  pos < size bf -> 8 * Z.of_nat (length (data bf)) <= pos ->
  iface_TestBit bm pos bf = None.
Proof using Type. intros Hsize Hbuf. beyond_buffer Hbuf. Qed.

End Regimes.

(** ** Multi-bit groups *)

Section Groups.

Import V2.

Lemma wrap64_small x : 0 <= x < 2 ^ 64 -> wrap64 x = x.
Proof. intros H. apply Z.mod_small. assumption. Qed.

(** One iteration of an insert loop: the bit at [pos] becomes [v], every
    other bit of the buffer stays. *)
Lemma write_bit bf pos (v : bool) :
  0 <= pos < size bf -> covers bf ->
  exists d1,
    (if v then manipulator_SetBit pos else manipulator_ClearBit pos) bf
    = Some (None, set_data bf d1)
    /\ length d1 = length (data bf)
    /\ (Forall byte_ok (data bf) -> Forall byte_ok d1)
    /\ forall q, 0 <= q ->
         bit_at (manipulator bf) d1 q
         = if q =? pos then v else bit_at (manipulator bf) (data bf) q.
Proof.
  intros Hpos Hcov. unfold covers in Hcov.
  exists (mask_byte (manipulator bf) (if v then Z.lor else Z.ldiff) (data bf) pos).
  split; [|split; [|split]].
  - unfold manipulator_SetBit, manipulator_ClearBit. destruct v.
    + apply SetBit_in_buffer; lia.
    + apply ClearBit_in_buffer; lia.
  - apply length_mask_byte.
  - apply bytes_ok_mask_byte. intros b k Hb Hk.
    destruct v; [apply byte_ok_lor | apply byte_ok_ldiff]; assumption.
  - intros q Hq. destruct v; [apply bit_at_set | apply bit_at_clear]; lia.
Qed.

Variables offset value : Z.

Lemma littleEndian_InsertUint64_loop_spec n : forall i bf,
  0 <= offset -> 0 <= i -> offset + i + Z.of_nat n <= size bf ->
  uint64_ok (size bf) -> covers bf ->
  exists d',
    littleEndian_InsertUint64_loop n i offset value bf = Some (None, set_data bf d')
    /\ length d' = length (data bf)
    /\ (Forall byte_ok (data bf) -> Forall byte_ok d')
    /\ forall q, 0 <= q ->
         bit_at (manipulator bf) d' q
         = if (offset + i <=? q) && (q <? offset + i + Z.of_nat n)
           then Z.testbit value (q - offset)
           else bit_at (manipulator bf) (data bf) q.
Proof using Type.
  induction n as [|n IH]; intros i bf Hoff Hi Hend Hsz Hcov.
  - exists (data bf). split; [destruct bf; reflexivity|].
    split; [reflexivity|]. split; [tauto|].
    intros q Hq. case_cmp.
  - cbn [littleEndian_InsertUint64_loop].
    rewrite wrap64_small by (unfold uint64_ok in Hsz; lia).
    rewrite shift_and_one by lia.
    destruct (write_bit bf (offset + i) (Z.testbit value i)) as (d1 & Hrun & Hlen & Hok & Hbits);
      [lia | assumption |].
    unfold bind. rewrite Hrun.
    destruct (IH (i + 1) (set_data bf d1)) as (d' & Hrun' & Hlen' & Hok' & Hbits');
      [lia | lia | simpl; lia | assumption | unfold covers in *; simpl; lia |].
    exists d'. rewrite Hrun'. simpl in *.
    split; [reflexivity|]. split; [congruence|]. split; [tauto|].
    intros q Hq. rewrite Hbits', Hbits by assumption.
    case_cmp. f_equal. lia.
Qed.

Lemma bigEndian_InsertUint64_loop_spec size0 i : forall bf,
  0 <= offset -> Z.of_nat i <= size0 -> offset + Z.of_nat i <= size bf ->
  uint64_ok (size bf) -> covers bf ->
  exists d',
    bigEndian_InsertUint64_loop i offset size0 value bf = Some (None, set_data bf d')
    /\ length d' = length (data bf)
    /\ (Forall byte_ok (data bf) -> Forall byte_ok d')
    /\ forall q, 0 <= q ->
         bit_at (manipulator bf) d' q
         = if (offset <=? q) && (q <? offset + Z.of_nat i)
           then Z.testbit value (size0 - 1 - (q - offset))
           else bit_at (manipulator bf) (data bf) q.
Proof using Type.
  induction i as [|i IH]; intros bf Hoff Hi Hend Hsz Hcov.
  - exists (data bf). split; [destruct bf; reflexivity|].
    split; [reflexivity|]. split; [tauto|].
    intros q Hq. case_cmp.
  - cbn [bigEndian_InsertUint64_loop].
    rewrite wrap64_small by (unfold uint64_ok in Hsz; lia).
    rewrite shift_and_one by lia.
    destruct (write_bit bf (offset + Z.of_nat (S i) - 1)
                (Z.testbit value (size0 - Z.of_nat (S i))))
      as (d1 & Hrun & Hlen & Hok & Hbits); [lia | assumption |].
    unfold bind. rewrite Hrun.
    destruct (IH (set_data bf d1)) as (d' & Hrun' & Hlen' & Hok' & Hbits');
      [lia | lia | simpl; lia | assumption | unfold covers in *; simpl; lia |].
    exists d'. rewrite Hrun'. simpl in *.
    split; [reflexivity|]. split; [congruence|]. split; [tauto|].
    intros q Hq. rewrite Hbits', Hbits by assumption.
    case_cmp. f_equal. lia.
Qed.

(** Reading a group: the loops or the bits they test into the accumulator. *)
Lemma littleEndian_ExtractUint64_loop_spec n : forall i group bf,
  0 <= offset -> 0 <= i -> i + Z.of_nat n <= 64 ->
  offset + i + Z.of_nat n <= size bf -> uint64_ok (size bf) -> covers bf ->
  exists r,
    littleEndian_ExtractUint64_loop n i offset group bf = Some ((r, None), bf)
    /\ (0 <= group -> 0 <= r)
    /\ forall j, 0 <= j ->
         Z.testbit r j
         = ((i <=? j) && (j <? i + Z.of_nat n)
            && bit_at (manipulator bf) (data bf) (offset + j))
           || Z.testbit group j.
Proof using Type.
  induction n as [|n IH]; intros i group bf Hoff Hi H64 Hend Hsz Hcov.
  - exists group. split; [reflexivity|]. split; [tauto|].
    intros j Hj. case_cmp.
  - cbn [littleEndian_ExtractUint64_loop].
    rewrite wrap64_small by (unfold uint64_ok in Hsz; lia).
    unfold bind, manipulator_TestBit.
    rewrite TestBit_in_buffer by (unfold covers in Hcov; lia).
    set (bit := bit_at (manipulator bf) (data bf) (offset + i)).
    destruct (IH (i + 1) (if bit then Z.lor group (shl64 1 i) else group) bf)
      as (r & Hrun & Hpos & Hbits); try assumption; try lia.
    exists r. split; [exact Hrun|]. split.
    + intros Hg. apply Hpos. destruct bit; [|assumption].
      apply Z.lor_nonneg. rewrite shl64_pow2 by lia.
      split; [assumption | apply Z.pow_nonneg; lia].
    + intros j Hj. rewrite Hbits by assumption.
      assert (Hacc : Z.testbit (if bit then Z.lor group (shl64 1 i) else group) j
                     = ((j =? i) && bit) || Z.testbit group j).
      { destruct bit.
        - rewrite shl64_pow2, testbit_lor_pow2 by lia.
          destruct (j =? i); reflexivity.
        - rewrite andb_false_r. reflexivity. }
      rewrite Hacc. subst bit.
      destruct (Z.eqb_spec j i) as [->|Hne]; case_cmp;
        destruct (bit_at _ _ _); reflexivity.
Qed.

Lemma bigEndian_ExtractUint64_loop_spec size0 i : forall group bf,
  0 <= offset -> Z.of_nat i <= size0 <= 64 ->
  offset + Z.of_nat i <= size bf -> uint64_ok (size bf) -> covers bf ->
  exists r,
    bigEndian_ExtractUint64_loop i offset size0 group bf = Some ((r, None), bf)
    /\ (0 <= group -> 0 <= r)
    /\ forall j, 0 <= j ->
         Z.testbit r j
         = ((size0 - Z.of_nat i <=? j) && (j <? size0)
            && bit_at (manipulator bf) (data bf) (offset + size0 - 1 - j))
           || Z.testbit group j.
Proof using Type.
  induction i as [|i IH]; intros group bf Hoff Hi Hend Hsz Hcov.
  - exists group. split; [reflexivity|]. split; [tauto|].
    intros j Hj. case_cmp.
  - cbn [bigEndian_ExtractUint64_loop].
    rewrite wrap64_small by (unfold uint64_ok in Hsz; lia).
    unfold bind, manipulator_TestBit.
    rewrite TestBit_in_buffer by (unfold covers in Hcov; lia).
    set (k := size0 - Z.of_nat (S i)).
    set (bit := bit_at (manipulator bf) (data bf) (offset + Z.of_nat (S i) - 1)).
    destruct (IH (if bit then Z.lor group (shl64 1 k) else group) bf)
      as (r & Hrun & Hpos & Hbits); try assumption; try lia.
    exists r. split; [exact Hrun|]. split.
    + intros Hg. apply Hpos. destruct bit; [|assumption].
      apply Z.lor_nonneg. rewrite shl64_pow2 by lia.
      split; [assumption | apply Z.pow_nonneg; lia].
    + intros j Hj. rewrite Hbits by assumption.
      assert (Hacc : Z.testbit (if bit then Z.lor group (shl64 1 k) else group) j
                     = ((j =? k) && bit) || Z.testbit group j).
      { destruct bit.
        - rewrite shl64_pow2, testbit_lor_pow2 by lia.
          destruct (j =? k); reflexivity.
        - rewrite andb_false_r. reflexivity. }
      rewrite Hacc. subst bit.
      destruct (Z.eqb_spec j k) as [->|Hne].
      * replace (offset + size0 - 1 - k) with (offset + Z.of_nat (S i) - 1) by lia.
        case_cmp; destruct (bit_at _ _ _); reflexivity.
      * case_cmp; destruct (bit_at _ _ _); reflexivity.
Qed.

End Groups.

(** ** Insert and extract, from the bounds test to the result *)

Section InsertExtract.

Import V2.

Lemma bounds_pass bf offset size0 :
  uint64_ok (size bf) -> 0 <= offset -> 0 <= size0 <= 64 ->
  offset + size0 <= size bf ->
  (size bf <? wrap64 (offset + size0)) || (64 <? size0) = false.
Proof.
  intros Hsz Hoff Hs Hend.
  rewrite wrap64_small by (unfold uint64_ok in Hsz; lia). case_cmp.
Qed.

Lemma InsertUint64_in_bounds bm bf offset size0 value :
  well_formed bf -> 0 <= offset -> 0 <= size0 <= 64 -> offset + size0 <= size bf ->
  exists d',
    iface_InsertUint64 bm offset size0 value bf = Some (None, set_data bf d')
    /\ length d' = length (data bf)
    /\ Forall byte_ok d'
    /\ forall q, 0 <= q ->
         bit_at (manipulator bf) d' q
         = if (offset <=? q) && (q <? offset + size0)
           then group_bit bm offset size0 value q
           else bit_at (manipulator bf) (data bf) q.
Proof.
  intros (Hsz & Hcov & Hok) Hoff Hs Hend.
  destruct bm; simpl iface_InsertUint64;
    unfold littleEndian_InsertUint64, bigEndian_InsertUint64;
    rewrite bounds_pass by assumption.
  - destruct (littleEndian_InsertUint64_loop_spec offset value (Z.to_nat size0) 0 bf)
      as (d' & Hrun & Hlen & Hok' & Hbits); try assumption; try lia.
    exists d'. repeat split; try assumption; [tauto|].
    intros q Hq. rewrite Hbits by assumption.
    rewrite Z.add_0_r, Z2Nat.id by lia. reflexivity.
  - destruct (bigEndian_InsertUint64_loop_spec offset value size0 (Z.to_nat size0) bf)
      as (d' & Hrun & Hlen & Hok' & Hbits); try assumption; try lia.
    exists d'. repeat split; try assumption; [tauto|].
    intros q Hq. rewrite Hbits by assumption.
    rewrite Z2Nat.id by lia. reflexivity.
Qed.

Lemma ExtractUint64_in_bounds bm bf offset size0 :
  uint64_ok (size bf) -> covers bf ->
  0 <= offset -> 0 <= size0 <= 64 -> offset + size0 <= size bf ->
  exists r,
    iface_ExtractUint64 bm offset size0 bf = Some ((r, None), bf)
    /\ 0 <= r
    /\ forall j, 0 <= j ->
         Z.testbit r j
         = (j <? size0)
           && bit_at (manipulator bf) (data bf)
                (match bm with
                 | LittleEndian => offset + j
                 | BigEndian => offset + size0 - 1 - j
                 end).
Proof.
  intros Hsz Hcov Hoff Hs Hend.
  destruct bm; simpl iface_ExtractUint64;
    unfold littleEndian_ExtractUint64, bigEndian_ExtractUint64;
    rewrite bounds_pass by assumption.
  - destruct (littleEndian_ExtractUint64_loop_spec offset (Z.to_nat size0) 0 0 bf)
      as (r & Hrun & Hpos & Hbits); try assumption; try lia.
    exists r. split; [assumption|]. split; [apply Hpos; lia|].
    intros j Hj. rewrite Hbits by assumption.
    rewrite Z.bits_0, orb_false_r, Z2Nat.id by lia. case_cmp.
  - destruct (bigEndian_ExtractUint64_loop_spec offset size0 (Z.to_nat size0) 0 bf)
      as (r & Hrun & Hpos & Hbits); try assumption; try lia.
    exists r. split; [assumption|]. split; [apply Hpos; lia|].
    intros j Hj. rewrite Hbits by assumption.
    rewrite Z.bits_0, orb_false_r, Z2Nat.id by lia. case_cmp.
Qed.

Lemma low_bits_mod size0 value :
  0 <= size0 <= 64 -> low_bits size0 value = value mod 2 ^ size0.
Proof.
  intros Hs. unfold low_bits.
  assert (Hones : wrap64 (shl64 1 size0 - 1) = Z.ones size0).
  { destruct (Z.eq_dec size0 64) as [->|Hne].
    - reflexivity.
    - rewrite shl64_pow2 by lia. rewrite Z.ones_equiv, Z.sub_1_r.
      apply wrap64_small.
      assert (0 < 2 ^ size0) by (apply Z.pow_pos_nonneg; lia).
      assert (2 ^ size0 < 2 ^ 64) by (apply Z.pow_lt_mono_r; lia). lia. }
  rewrite Hones. apply Z.land_ones. lia.
Qed.

End InsertExtract.

(** ** Reads do not touch the field, and do not see the stored error *)

Section Reads.

Import V2.

Lemma TestBit_closed_form bm pos bf :
  iface_TestBit bm pos bf
  = if size bf <=? pos then Some ((false, Some OutOfRange), bf)
    else match data bf !! Z.to_nat (pos / 8) with
         | Some b => Some ((0 <? Z.land b (shl8 1 (bitIndex bm pos)), None), bf)
         | None => None
         end.
Proof.
  destruct bm; simpl;
    unfold littleEndian_TestBit, bigEndian_TestBit, calcBitPosLE, calcBitPosBE,
      bind, ret, load;
    destruct (size bf <=? pos); try reflexivity;
    destruct (data bf !! Z.to_nat (pos / 8)); reflexivity.
Qed.

Lemma TestBit_state bm pos bf r bf' :
  iface_TestBit bm pos bf = Some (r, bf') -> bf' = bf.
Proof.
  rewrite TestBit_closed_form.
  destruct (size bf <=? pos); [congruence|].
  destruct (data bf !! _); congruence.
Qed.

Lemma TestBit_with_err bm pos bf e :
  iface_TestBit bm pos (set_err bf e) = with_err e (iface_TestBit bm pos bf).
Proof.
  rewrite !TestBit_closed_form. simpl.
  destruct (size bf <=? pos); [reflexivity|].
  destruct (data bf !! _); reflexivity.
Qed.

Lemma littleEndian_ExtractUint64_loop_state offset n : forall i group bf r bf',
  littleEndian_ExtractUint64_loop n i offset group bf = Some (r, bf') -> bf' = bf.
Proof.
  induction n as [|n IH]; intros i group bf r bf'; simpl.
  - unfold ret. congruence.
  - unfold bind, manipulator_TestBit.
    destruct (iface_TestBit _ _ bf) as [[[b [e|]] bf1]|] eqn:Htest; try discriminate.
    + apply TestBit_state in Htest. unfold ret. congruence.
    + apply TestBit_state in Htest. subst bf1. apply IH.
Qed.

Lemma bigEndian_ExtractUint64_loop_state offset size0 i : forall group bf r bf',
  bigEndian_ExtractUint64_loop i offset size0 group bf = Some (r, bf') -> bf' = bf.
Proof.
  induction i as [|i IH]; intros group bf r bf'; cbn [bigEndian_ExtractUint64_loop].
  - unfold ret. congruence.
  - unfold bind, manipulator_TestBit.
    destruct (iface_TestBit _ _ bf) as [[[b [e|]] bf1]|] eqn:Htest; try discriminate.
    + apply TestBit_state in Htest. unfold ret. congruence.
    + apply TestBit_state in Htest. subst bf1. apply IH.
Qed.

Lemma ExtractUint64_state bm offset size0 bf r bf' :
  iface_ExtractUint64 bm offset size0 bf = Some (r, bf') -> bf' = bf.
Proof.
  destruct bm; simpl; unfold littleEndian_ExtractUint64, bigEndian_ExtractUint64;
    destruct (_ || _); try (unfold ret; congruence).
  - apply littleEndian_ExtractUint64_loop_state.
  - apply bigEndian_ExtractUint64_loop_state.
Qed.

Lemma littleEndian_ExtractUint64_loop_with_err offset e n : forall i group bf,
  littleEndian_ExtractUint64_loop n i offset group (set_err bf e)
  = with_err e (littleEndian_ExtractUint64_loop n i offset group bf).
Proof.
  induction n as [|n IH]; intros i group bf; simpl; [reflexivity|].
  unfold bind, manipulator_TestBit. simpl manipulator.
  rewrite TestBit_with_err.
  destruct (iface_TestBit _ _ bf) as [[[b [e1|]] bf1]|]; simpl; try reflexivity.
  apply IH.
Qed.

Lemma bigEndian_ExtractUint64_loop_with_err offset size0 e i : forall group bf,
  bigEndian_ExtractUint64_loop i offset size0 group (set_err bf e)
  = with_err e (bigEndian_ExtractUint64_loop i offset size0 group bf).
Proof.
  induction i as [|i IH]; intros group bf; cbn [bigEndian_ExtractUint64_loop];
    [reflexivity|].
  unfold bind, manipulator_TestBit. simpl manipulator.
  rewrite TestBit_with_err.
  destruct (iface_TestBit _ _ bf) as [[[b [e1|]] bf1]|]; simpl; try reflexivity.
  apply IH.
Qed.

Lemma ExtractUint64_with_err bm offset size0 bf e :
  iface_ExtractUint64 bm offset size0 (set_err bf e)
  = with_err e (iface_ExtractUint64 bm offset size0 bf).
Proof.
  destruct bm; simpl; unfold littleEndian_ExtractUint64, bigEndian_ExtractUint64;
    simpl size; destruct (_ || _); try reflexivity.
  - apply littleEndian_ExtractUint64_loop_with_err.
  - apply bigEndian_ExtractUint64_loop_with_err.
Qed.

End Reads.

(** ** Version 1 against the little-endian strategy of version 2 *)

Section Versions.

Import V2.

Lemma wrap64_nonneg x : 0 <= wrap64 x.
Proof. unfold wrap64. apply Z.mod_pos_bound. lia. Qed.

Lemma mod8_range pos : 0 <= pos mod 8 < 8.
Proof. apply Z.mod_pos_bound. lia. Qed.

Lemma V1_SetBit_eq bf pos :
  lift_v2 (V1.SetBit pos bf) = littleEndian_SetBit pos (to_v2 bf).
Proof.
  unfold V1.SetBit, littleEndian_SetBit, V1.calculateBitPosition, calcBitPosLE,
    bind, ret, V1.update, update. simpl.
  destruct (V1.sz bf <=? pos); [reflexivity|].
  destruct (V1.bits bf !! Z.to_nat (pos / 8)); reflexivity.
Qed.

Lemma V1_ToggleBit_eq bf pos :
  lift_v2 (V1.ToggleBit pos bf) = littleEndian_ToggleBit pos (to_v2 bf).
Proof.
  unfold V1.ToggleBit, littleEndian_ToggleBit, V1.calculateBitPosition, calcBitPosLE,
    bind, ret, V1.update, update. simpl.
  destruct (V1.sz bf <=? pos); [reflexivity|].
  destruct (V1.bits bf !! Z.to_nat (pos / 8)); reflexivity.
Qed.

(** [&= ^(1 << k)] of version 1 and [&^= 1 << k] of version 2 agree on
    bytes. *)
Lemma V1_ClearBit_eq bf pos :
  Forall byte_ok (V1.bits bf) ->
  lift_v2 (V1.ClearBit pos bf) = littleEndian_ClearBit pos (to_v2 bf).
Proof.
  intros Hok.
  unfold V1.ClearBit, littleEndian_ClearBit, V1.calculateBitPosition, calcBitPosLE,
    bind, ret, V1.update, update. simpl.
  destruct (V1.sz bf <=? pos); [reflexivity|].
  destruct (V1.bits bf !! Z.to_nat (pos / 8)) as [b|] eqn:Hb; [|reflexivity].
  simpl. unfold to_v2, V1.set_bits, set_data. simpl.
  rewrite shl8_pow2 by apply mod8_range.
  rewrite ldiff_land_lnot8; [reflexivity | | apply mod8_range].
  eapply Forall_lookup_1; eassumption.
Qed.

(** [!= 0] of version 1 and [> 0] of version 2 agree on a masked byte. *)
Lemma V1_TestBit_eq bf pos :
  lift_v2 (V1.TestBit pos bf) = littleEndian_TestBit pos (to_v2 bf).
Proof.
  unfold V1.TestBit, littleEndian_TestBit, V1.calculateBitPosition, calcBitPosLE,
    bind, ret, V1.load, load. simpl.
  destruct (V1.sz bf <=? pos); [reflexivity|].
  destruct (V1.bits bf !! Z.to_nat (pos / 8)) as [b|]; [|reflexivity].
  simpl. rewrite shl8_pow2 by apply mod8_range.
  rewrite mask_nonzero, mask_positive by apply mod8_range. reflexivity.
Qed.

(** The single-bit mutations keep bytes bytes. *)
Lemma mutation_bytes_ok bm pos bf e bf' :
  0 <= pos -> Forall byte_ok (data bf) ->
  iface_SetBit bm pos bf = Some (e, bf') \/ iface_ClearBit bm pos bf = Some (e, bf') ->
  Forall byte_ok (data bf').
Proof.
  intros Hpos Hok Hrun.
  destruct (Z_lt_le_dec pos (size bf)) as [Hin|Hout].
  - destruct (Z_lt_le_dec pos (8 * Z.of_nat (length (data bf)))) as [Hbuf|Hbuf].
    + destruct Hrun as [Hrun|Hrun];
        [rewrite SetBit_in_buffer in Hrun by lia
        |rewrite ClearBit_in_buffer in Hrun by lia];
        injection Hrun as _ <-; simpl; apply bytes_ok_mask_byte; try assumption;
        intros; [apply byte_ok_lor | apply byte_ok_ldiff]; assumption.
    + destruct Hrun as [Hrun|Hrun];
        [rewrite SetBit_beyond_buffer in Hrun by lia
        |rewrite ClearBit_beyond_buffer in Hrun by lia]; discriminate.
  - destruct Hrun as [Hrun|Hrun];
      [rewrite SetBit_out_of_range in Hrun by lia
      |rewrite ClearBit_out_of_range in Hrun by lia];
      injection Hrun as _ <-; assumption.
Qed.

Lemma V1_InsertUint_loop_eq offset value n : forall i bf,
  Forall byte_ok (V1.bits bf) ->
  lift_v2 (V1.InsertUint_loop V1.self n i offset value bf)
  = littleEndian_InsertUint64_loop n i offset value (to_v2 bf).
Proof.
  induction n as [|n IH]; intros i bf Hok; [reflexivity|].
  cbn [V1.InsertUint_loop littleEndian_InsertUint64_loop].
  set (pos := wrap64 (offset + i)).
  set (c := Z.land (Z.shiftr value i) 1 =? 1).
  assert (Hstep : lift_v2 ((if c then V1.man_SetBit V1.self pos
                            else V1.man_ClearBit V1.self pos) bf)
                  = (if c then manipulator_SetBit pos
                     else manipulator_ClearBit pos) (to_v2 bf)).
  { destruct c; simpl; [apply V1_SetBit_eq | apply V1_ClearBit_eq; assumption]. }
  unfold bind.
  destruct ((if c then V1.man_SetBit V1.self pos else V1.man_ClearBit V1.self pos) bf)
    as [[e bf1]|] eqn:Hv1; rewrite <- Hstep; simpl; [|reflexivity].
  destruct e as [e|]; [reflexivity|].
  apply IH.
  change (Forall byte_ok (data (to_v2 bf1))).
  apply (mutation_bytes_ok LittleEndian pos (to_v2 bf) None);
    [apply wrap64_nonneg | exact Hok |].
  simpl in Hstep. destruct c; [left | right]; symmetry; exact Hstep.
Qed.

End Versions.

(** ** Construction, and the test suite's scenarios *)

Section Construction.

Import V2.

Lemma bytes_ok_replicate n : Forall byte_ok (replicate n 0).
Proof. apply Forall_replicate. unfold byte_ok. lia. Qed.

(** [New] allocates [ceil(n / 8)] zero bytes, as long as [n + 7] does not
    wrap. *)
Lemma New_size_invariant bm n :
  0 <= n -> n + 7 < 2 ^ 64 ->
  Size (iface_New bm n) = n /\ size_invariant (iface_New bm n).
Proof.
  intros H0 Hn. unfold size_invariant.
  destruct bm; simpl; (split; [reflexivity|]);
    rewrite length_replicate, wrap64_small by lia;
    apply Z2Nat.id, Z.div_pos; lia.
Qed.

Lemma size_invariant_covers bf : size_invariant bf -> covers bf.
Proof.
  unfold size_invariant, covers. intros ->.
  pose proof (Z.div_mod (size bf + 7) 8 ltac:(lia)).
  pose proof (Z.mod_pos_bound (size bf + 7) 8 ltac:(lia)). lia.
Qed.

Lemma New_well_formed bm n :
  0 <= n -> n + 7 < 2 ^ 64 -> well_formed (iface_New bm n).
Proof.
  intros H0 Hn. destruct (New_size_invariant bm n H0 Hn) as [Hsize Hinv].
  split; [|split].
  - unfold Size in Hsize. rewrite Hsize. red. lia.
  - apply size_invariant_covers. exact Hinv.
  - destruct bm; apply bytes_ok_replicate.
Qed.

(** On a field that stores no error the container of [v2/bitfield.go]
    answers as the plain container does, and stores the error it returns. *)
Lemma latched_without_error (op : exec BitField (option error)) bf :
  err bf = None ->
  latched op bf = match op bf with
                  | Some (e, bf') => Some (e, set_err bf' e)
                  | None => None
                  end.
Proof. intros Herr. unfold latched. rewrite Herr. reflexivity. Qed.

(** Scenarios of the repository's test tables, run on the embedding. *)

Example test_SetBit_LE :
  littleEndian_SetBit 9 (littleEndian_FromBytes [0x00; 0x00] 16)
  = Some (None, littleEndian_FromBytes [0x00; 0x02] 16).
Proof. reflexivity. Qed.

Example test_SetBit_BE :
  bigEndian_SetBit 9 (bigEndian_FromBytes [0x00; 0x00] 16)
  = Some (None, bigEndian_FromBytes [0x00; 0x40] 16).
Proof. reflexivity. Qed.

Example test_ClearBit_LE :
  littleEndian_ClearBit 9 (littleEndian_FromBytes [0xFF; 0xFF] 16)
  = Some (None, littleEndian_FromBytes [0xFF; 0xFD] 16).
Proof. reflexivity. Qed.

Example test_ToggleBit_out_of_range :
  bigEndian_ToggleBit 100 (bigEndian_FromBytes [0xAA] 8)
  = Some (Some OutOfRange, bigEndian_FromBytes [0xAA] 8).
Proof. reflexivity. Qed.

Example test_InsertUint64_LE_spanning :
  littleEndian_InsertUint64 4 16 0xAAAA (littleEndian_FromBytes [0; 0; 0; 0] 32)
  = Some (None, littleEndian_FromBytes [0xA0; 0xAA; 0x0A; 0x00] 32).
Proof. vm_compute. reflexivity. Qed.

Example test_InsertUint64_BE_spanning :
  bigEndian_InsertUint64 4 16 0xAAAA (bigEndian_FromBytes [0; 0; 0; 0] 32)
  = Some (None, bigEndian_FromBytes [0x0A; 0xAA; 0xA0; 0x00] 32).
Proof. vm_compute. reflexivity. Qed.

Example test_ExtractUint64_LE_spanning :
  littleEndian_ExtractUint64 4 16 (littleEndian_FromBytes [0xA0; 0xAA; 0x0A; 0x00] 32)
  = Some ((0xAAAA, None), littleEndian_FromBytes [0xA0; 0xAA; 0x0A; 0x00] 32).
Proof. vm_compute. reflexivity. Qed.

Example test_ExtractUint64_BE_spanning :
  bigEndian_ExtractUint64 4 16 (bigEndian_FromBytes [0xA0; 0xAA; 0x0A; 0x00] 32)
  = Some ((0x0AA0, None), bigEndian_FromBytes [0xA0; 0xAA; 0x0A; 0x00] 32).
Proof. vm_compute. reflexivity. Qed.

Example test_InsertUint64_too_wide :
  bigEndian_InsertUint64 0 65 (2 ^ 64 - 1) (bigEndian_New 128)
  = Some (Some InvalidOperation, bigEndian_New 128).
Proof. vm_compute. reflexivity. Qed.

Example test_InsertUint64_zero_size :
  littleEndian_InsertUint64 5 0 1 (littleEndian_New 16)
  = Some (None, littleEndian_New 16).
Proof. vm_compute. reflexivity. Qed.

Example test_V1_InsertUint_spanning :
  V1.InsertUint V1.self 4 16 0xAAAA (V1.mkBitField [0; 0; 0; 0] 32)
  = Some (None, V1.mkBitField [0xA0; 0xAA; 0x0A; 0x00] 32).
Proof. vm_compute. reflexivity. Qed.

Example test_V1_ExtractUint_spanning :
  V1.ExtractUint V1.self 4 16 (V1.mkBitField [0xA0; 0xAA; 0x0A; 0x00] 32)
  = Some ((0xAAAA, None), V1.mkBitField [0xA0; 0xAA; 0x0A; 0x00] 32).
Proof. vm_compute. reflexivity. Qed.

Example test_V1_FromBytes :
  V1.FromBytes [0xFF; 0x01] = V1.mkBitField [0xFF; 0x01] 16.
Proof. reflexivity. Qed.

End Construction.

(** * The properties of the specification *)

Section Specification.

Import V2.

(** C1. Round trip: on every well-formed field, for every [offset] and
    [size] with [size <= 64] and [offset + size <= bit_count] and every
    value, inserting the value at [(offset, size)] succeeds and extracting
    [(offset, size)] from the resulting field returns
    [value & ((1 << size) - 1)], without an error; the strategy [bm] is the
    little-endian one or the big-endian one, each on its own. *)
Theorem C1_round_trip (bm : Manipulator) (bf : BitField) (offset size0 value : Z) :
  well_formed bf ->
  0 <= offset -> 0 <= size0 <= 64 -> offset + size0 <= size bf ->
  exists bf',
    iface_InsertUint64 bm offset size0 value bf = Some (None, bf')
    /\ iface_ExtractUint64 bm offset size0 bf' = Some ((low_bits size0 value, None), bf').
Proof.
  intros Hwf Hoff Hs Hend.
  destruct (InsertUint64_in_bounds bm bf offset size0 value Hwf Hoff Hs Hend)
    as (d' & Hins & Hlen & Hok & Hbits).
  destruct Hwf as (Hsz & Hcov & _).
  exists (set_data bf d'). split; [exact Hins|].
  destruct (ExtractUint64_in_bounds bm (set_data bf d') offset size0)
    as (r & Hext & Hpos & Hr); try assumption.
  { unfold covers in *. simpl. lia. }
  rewrite Hext. do 3 f_equal.
  rewrite low_bits_mod by assumption.
  apply Z.bits_inj'. intros j Hj. rewrite Hr by assumption. simpl.
  destruct (Z.ltb_spec j size0).
  - rewrite Z.mod_pow2_bits_low by lia. simpl.
    destruct bm; rewrite Hbits by lia; unfold group_bit; case_cmp; f_equal; lia.
  - rewrite Z.mod_pow2_bits_high by lia. reflexivity.
Qed.

Lemma C1_round_trip_witness :
  well_formed (bigEndian_New 128)
  /\ exists bf',
       iface_InsertUint64 BigEndian 48 4 7 (bigEndian_New 128) = Some (None, bf')
       /\ iface_ExtractUint64 BigEndian 48 4 bf' = Some ((low_bits 4 7, None), bf').
Proof.
  assert (Hwf : well_formed (bigEndian_New 128))
    by (apply (New_well_formed BigEndian); lia).
  split; [exact Hwf|].
  apply (C1_round_trip BigEndian (bigEndian_New 128) 48 4 7 Hwf);
    [lia | lia | simpl; lia].
Defined.

(** C2. Endianness divergence, the literal scenario: on a 16-bit
    little-endian field of zeros, [InsertUint64(4, 4, 0b1111)] succeeds and
    leaves the bytes [0b11110000, 0b00000000]; the same call on a 16-bit
    big-endian field of zeros succeeds and leaves
    [0b00001111, 0b00000000]. *)
Theorem C2_endianness_divergence :
  (exists bf', littleEndian_InsertUint64 4 4 0xF (littleEndian_New 16) = Some (None, bf')
               /\ Bytes bf' = [0xF0; 0x00])
  /\ (exists bf', bigEndian_InsertUint64 4 4 0xF (bigEndian_New 16) = Some (None, bf')
                  /\ Bytes bf' = [0x0F; 0x00]).
Proof.
  split; eexists; (split; [vm_compute; reflexivity | reflexivity]).
Qed.

(** C3. Big-endian position mapping and group convention: for every
    in-range position, [calcBitPosBE] answers byte [pos / 8] and in-byte bit
    [7 - pos % 8] (in-byte bit 7 is the most significant bit of the byte, so
    position 0 of a byte is its most significant bit); and after every
    in-bounds insert of a group of [size >= 1] bits at [offset] into a
    big-endian field, logical position [offset] holds bit [size - 1] of the
    value and logical position [offset + size - 1] holds its bit 0. *)
Theorem C3_big_endian_mapping (bf : BitField) (offset size0 value pos : Z) :
  well_formed bf -> manipulator bf = BigEndian ->
  0 <= pos < size bf ->
  0 <= offset -> 1 <= size0 <= 64 -> offset + size0 <= size bf ->
  calcBitPosBE bf pos = (pos / 8, 7 - pos mod 8, None)
  /\ bit_at BigEndian (data bf) pos
     = Z.testbit (nth (Z.to_nat (pos / 8)) (data bf) 0) (7 - pos mod 8)
  /\ bigEndian_TestBit pos bf = Some ((bit_at BigEndian (data bf) pos, None), bf)
  /\ exists bf',
       bigEndian_InsertUint64 offset size0 value bf = Some (None, bf')
       /\ bigEndian_TestBit offset bf' = Some ((Z.testbit value (size0 - 1), None), bf')
       /\ bigEndian_TestBit (offset + size0 - 1) bf' = Some ((Z.testbit value 0, None), bf').
Proof.
  intros Hwf Hbm Hpos Hoff Hs Hend.
  assert (Hcov := proj1 (proj2 Hwf)). unfold covers in Hcov.
  split; [|split; [|split]].
  - unfold calcBitPosBE. case_cmp.
  - unfold bit_at. simpl bitIndex.
    destruct (lookup_byte (data bf) pos ltac:(lia)) as [b Hb].
    rewrite Hb. erewrite nth_lookup_Some by exact Hb. reflexivity.
  - apply (TestBit_in_buffer BigEndian); lia.
  - destruct (InsertUint64_in_bounds BigEndian bf offset size0 value Hwf Hoff)
      as (d' & Hins & Hlen & Hok & Hbits); [lia | lia |].
    exists (set_data bf d'). split; [exact Hins|].
    rewrite Hbm in Hbits.
    split.
    + rewrite (TestBit_in_buffer BigEndian) by (simpl; lia). simpl.
      rewrite Hbits by lia. unfold group_bit. case_cmp.
      replace (size0 - 1 - (offset - offset)) with (size0 - 1) by lia. reflexivity.
    + rewrite (TestBit_in_buffer BigEndian) by (simpl; lia). simpl.
      rewrite Hbits by lia. unfold group_bit. case_cmp.
      replace (size0 - 1 - (offset + size0 - 1 - offset)) with 0 by lia. reflexivity.
Qed.

Lemma C3_big_endian_mapping_witness :
  well_formed (bigEndian_New 16)
  /\ calcBitPosBE (bigEndian_New 16) 9 = (9 / 8, 7 - 9 mod 8, None)
  /\ exists bf',
       bigEndian_InsertUint64 4 4 0xA (bigEndian_New 16) = Some (None, bf')
       /\ bigEndian_TestBit 4 bf' = Some ((Z.testbit 0xA (4 - 1), None), bf')
       /\ bigEndian_TestBit (4 + 4 - 1) bf' = Some ((Z.testbit 0xA 0, None), bf').
Proof.
  assert (Hwf : well_formed (bigEndian_New 16))
    by (apply (New_well_formed BigEndian); lia).
  split; [exact Hwf|].
  destruct (C3_big_endian_mapping (bigEndian_New 16) 4 4 0xA 9 Hwf eq_refl)
    as (Hcalc & _ & _ & Hgroup); [simpl; lia | lia | lia | simpl; lia |].
  split; [exact Hcalc | exact Hgroup].
Defined.

(** The bounds test of version 2, where [offset + size] does not wrap: an
    insert or an extract whose group ends beyond the bit count, or is wider
    than 64 bits, returns [InvalidOperation] and touches nothing. *)
Lemma V2_bounds_failure (bm : Manipulator) (bf : BitField) (offset size0 value : Z) :
  0 <= offset + size0 < 2 ^ 64 ->
  size bf < offset + size0 \/ 64 < size0 ->
  iface_InsertUint64 bm offset size0 value bf = Some (Some InvalidOperation, bf)
  /\ iface_ExtractUint64 bm offset size0 bf = Some ((0, Some InvalidOperation), bf).
Proof.
  intros Hsum Hbad.
  assert (Htest : (size bf <? wrap64 (offset + size0)) || (64 <? size0) = true).
  { rewrite wrap64_small by assumption. apply orb_true_iff.
    destruct Hbad; [left; apply Z.ltb_lt | right; apply Z.ltb_lt]; assumption. }
  destruct bm; simpl;
    unfold littleEndian_InsertUint64, littleEndian_ExtractUint64,
      bigEndian_InsertUint64, bigEndian_ExtractUint64;
    rewrite Htest; split; reflexivity.
Qed.

(** C4. Bounds failure of the multi-bit operations, at the inputs where the
    code parts from it.  In version 1, on a 128-bit field, [InsertUint] of a
    65-bit group returns [InvalidOperation], and [ExtractUint] of the same
    65-bit group returns a value and a [nil] error: the test [size > 64] of
    the insert is missing from the extract.  In version 2, the sum
    [offset + size] of the bounds test wraps: with [offset = 2^64 - 1] and
    [size = 2] on a 16-bit field the test passes, the little-endian insert
    returns [OutOfRange] from its first [SetBit], and the big-endian insert
    first sets position 0 and then returns [OutOfRange]. *)
Theorem C4_bounds_divergence :
  V1.InsertUint V1.self 0 65 0 (V1.New 128) = Some (Some InvalidOperation, V1.New 128)
  /\ V1.ExtractUint V1.self 0 65 (V1.New 128) = Some ((0, None), V1.New 128)
  /\ littleEndian_InsertUint64 (2 ^ 64 - 1) 2 3 (littleEndian_New 16)
     = Some (Some OutOfRange, littleEndian_New 16)
  /\ bigEndian_InsertUint64 (2 ^ 64 - 1) 2 3 (bigEndian_New 16)
     = Some (Some OutOfRange, set_data (bigEndian_New 16) [0x80; 0x00])
  /\ bigEndian_ExtractUint64 (2 ^ 64 - 1) 2 (bigEndian_New 16)
     = Some ((0, Some OutOfRange), bigEndian_New 16).
Proof.
  repeat split; vm_compute; reflexivity.
Qed.

(** C5. Single-bit bounds: for every field and every position at or
    beyond the bit count, each of [SetBit], [ClearBit], [ToggleBit] and
    [TestBit] of either strategy returns [OutOfRange] and leaves the field,
    its buffer included, as it was; and for a position below the bit count,
    on a field whose buffer holds every declared bit, each of them returns
    a [nil] error. *)
Theorem C5_single_bit_bounds (bm : Manipulator) (bf : BitField) (pos : Z) :
  (size bf <= pos ->
     iface_SetBit bm pos bf = Some (Some OutOfRange, bf)
     /\ iface_ClearBit bm pos bf = Some (Some OutOfRange, bf)
     /\ iface_ToggleBit bm pos bf = Some (Some OutOfRange, bf)
     /\ iface_TestBit bm pos bf = Some ((false, Some OutOfRange), bf))
  /\ (covers bf -> 0 <= pos < size bf ->
        (exists bf', iface_SetBit bm pos bf = Some (None, bf'))
        /\ (exists bf', iface_ClearBit bm pos bf = Some (None, bf'))
        /\ (exists bf', iface_ToggleBit bm pos bf = Some (None, bf'))
        /\ (exists b, iface_TestBit bm pos bf = Some ((b, None), bf))).
Proof.
  split.
  - intros Hpos. repeat split.
    + apply SetBit_out_of_range; assumption.
    + apply ClearBit_out_of_range; assumption.
    + apply ToggleBit_out_of_range; assumption.
    + apply TestBit_out_of_range; assumption.
  - intros Hcov Hpos. unfold covers in Hcov. repeat split; eexists.
    + apply SetBit_in_buffer; lia.
    + apply ClearBit_in_buffer; lia.
    + apply ToggleBit_in_buffer; lia.
    + apply TestBit_in_buffer; lia.
Qed.

Lemma C5_single_bit_bounds_witness :
  (size (littleEndian_New 8) <= 100
   /\ iface_SetBit LittleEndian 100 (littleEndian_New 8)
      = Some (Some OutOfRange, littleEndian_New 8))
  /\ (covers (littleEndian_New 8) /\ 0 <= 3 < size (littleEndian_New 8)
      /\ exists bf', iface_SetBit LittleEndian 3 (littleEndian_New 8) = Some (None, bf')).
Proof.
  assert (Hout : size (littleEndian_New 8) <= 100) by (simpl; lia).
  assert (Hcov : covers (littleEndian_New 8)) by (unfold covers; simpl; lia).
  assert (Hin : 0 <= 3 < size (littleEndian_New 8)) by (simpl; lia).
  split.
  - split; [exact Hout|].
    exact (proj1 (proj1 (C5_single_bit_bounds LittleEndian (littleEndian_New 8) 100) Hout)).
  - split; [exact Hcov|]. split; [exact Hin|].
    exact (proj1 (proj2 (C5_single_bit_bounds LittleEndian (littleEndian_New 8) 3) Hcov Hin)).
Defined.

(** A mutating call on a field that stores an error returns that error
    and touches nothing. *)
Lemma perform_latched (c : call) (bf : BitField) (e : error) :
  mutating c = true -> err bf = Some e ->
  perform c bf = Some (RetError (Some e), bf).
Proof.
  intros Hmut Herr.
  destruct c; try discriminate; simpl;
    unfold bind, SetBit, ClearBit, ToggleBit, InsertUint64, latched;
    rewrite Herr; reflexivity.
Qed.

(** A read returns the field as it found it. *)
Lemma perform_read_state (c : call) (bf bf' : BitField) (r : returned) :
  mutating c = false -> perform c bf = Some (r, bf') -> bf' = bf.
Proof.
  intros Hmut. destruct c; try discriminate; simpl;
    unfold bind, TestBit, ExtractUint64, manipulator_TestBit, manipulator_ExtractUint64.
  - destruct (iface_TestBit _ _ bf) as [[a bf1]|] eqn:Hrun; [|discriminate].
    apply TestBit_state in Hrun. unfold ret. congruence.
  - destruct (iface_ExtractUint64 _ _ _ bf) as [[a bf1]|] eqn:Hrun; [|discriminate].
    apply ExtractUint64_state in Hrun. unfold ret. congruence.
Qed.

(** A failed mutating call leaves its error stored. *)
Lemma perform_failure_stored (c : call) (bf bf1 : BitField) (e : error) :
  mutating c = true -> perform c bf = Some (RetError (Some e), bf1) ->
  err bf1 = Some e.
Proof.
  intros Hmut.
  destruct c; try discriminate; simpl;
    unfold bind, SetBit, ClearBit, ToggleBit, InsertUint64, latched;
    (destruct (err bf) as [e0|] eqn:Herr;
     [ unfold ret; intros [= <- <-]; exact Herr
     | match goal with
       | |- context [match ?op bf with _ => _ end] =>
           destruct (op bf) as [[e1 bf2]|]; [|discriminate]
       end;
       unfold ret; intros [= -> <-]; reflexivity ]).
Qed.

(** C6. Fail-fast latch: once a mutating call ([SetBit], [ClearBit],
    [ToggleBit], [InsertUint64]) has returned an error [e], the field stores
    [e]; every later mutating call returns [e] and leaves the field, buffer
    included, untouched, whatever calls come in between; and [TestBit] and
    [ExtractUint64] do not see the stored error: they answer from the
    current buffer exactly as they would with no error stored, and leave the
    field as it is. *)
Theorem C6_fail_fast_latch (bf bf1 : BitField) (c : call) (e : error) :
  mutating c = true ->
  perform c bf = Some (RetError (Some e), bf1) ->
  Error bf1 = Some e
  /\ (forall m, mutating m = true -> perform m bf1 = Some (RetError (Some e), bf1))
  /\ (forall cs, Forall (fun m => mutating m = true) cs ->
        run cs bf1 = Some (map (fun _ => RetError (Some e)) cs, bf1))
  /\ (forall cs rs bf2, run cs bf1 = Some (rs, bf2) ->
        bf2 = bf1
        /\ Forall2 (fun m r => mutating m = true -> r = RetError (Some e)) cs rs)
  /\ (forall pos,
        TestBit pos bf1 = with_err (Some e) (TestBit pos (set_err bf1 None)))
  /\ (forall offset size0,
        ExtractUint64 offset size0 bf1
        = with_err (Some e) (ExtractUint64 offset size0 (set_err bf1 None))).
Proof.
  intros Hmut Hfail.
  pose proof (perform_failure_stored c bf bf1 e Hmut Hfail) as Hstored.
  assert (Hbf1 : set_err (set_err bf1 None) (Some e) = bf1).
  { destruct bf1; simpl in *. unfold set_err. simpl. congruence. }
  split; [exact Hstored|]. split; [|split; [|split; [|split]]].
  - intros m Hm. apply perform_latched; assumption.
  - induction 1 as [|m cs Hm _ IH]; [reflexivity|].
    cbn [run map]. unfold bind at 1.
    rewrite (perform_latched m bf1 e Hm Hstored).
    unfold bind. rewrite IH. reflexivity.
  - induction cs as [|m cs IH]; intros rs bf2; cbn [run].
    + unfold ret. intros [= <- <-]. split; [reflexivity | constructor].
    + unfold bind at 1.
      destruct (perform m bf1) as [[r bf']|] eqn:Hm; [|discriminate].
      assert (Hsame : bf' = bf1 /\ (mutating m = true -> r = RetError (Some e))).
      { destruct (mutating m) eqn:Hmm.
        - rewrite (perform_latched m bf1 e Hmm Hstored) in Hm.
          injection Hm as <- <-. split; reflexivity.
        - split; [eapply perform_read_state; eassumption | discriminate]. }
      destruct Hsame as [-> Hr].
      unfold bind.
      destruct (run cs bf1) as [[rs' bf3]|] eqn:Hrun; [|discriminate].
      unfold ret. intros [= <- <-].
      destruct (IH rs' bf3 eq_refl) as [-> Hall].
      split; [reflexivity | constructor; assumption].
  - intros pos. unfold TestBit, manipulator_TestBit.
    simpl manipulator. rewrite TestBit_with_err.
    destruct (iface_TestBit _ pos bf1) as [[r bf']|] eqn:Hrun; [|reflexivity].
    apply TestBit_state in Hrun. subst bf'. simpl. rewrite Hbf1. reflexivity.
  - intros offset size0. unfold ExtractUint64, manipulator_ExtractUint64.
    simpl manipulator. rewrite ExtractUint64_with_err.
    destruct (iface_ExtractUint64 _ offset size0 bf1) as [[r bf']|] eqn:Hrun;
      [|reflexivity].
    apply ExtractUint64_state in Hrun. subst bf'. simpl. rewrite Hbf1. reflexivity.
Qed.

Lemma C6_fail_fast_latch_witness :
  mutating (CallSetBit 100) = true
  /\ perform (CallSetBit 100) (littleEndian_New 8)
     = Some (RetError (Some OutOfRange), set_err (littleEndian_New 8) (Some OutOfRange))
  /\ perform (CallInsertUint64 0 4 0xF) (set_err (littleEndian_New 8) (Some OutOfRange))
     = Some (RetError (Some OutOfRange), set_err (littleEndian_New 8) (Some OutOfRange)).
Proof.
  assert (Hfail : perform (CallSetBit 100) (littleEndian_New 8)
                  = Some (RetError (Some OutOfRange),
                          set_err (littleEndian_New 8) (Some OutOfRange)))
    by reflexivity.
  split; [reflexivity|]. split; [exact Hfail|].
  exact (proj1 (proj2 (C6_fail_fast_latch _ _ (CallSetBit 100) OutOfRange eq_refl Hfail))
           (CallInsertUint64 0 4 0xF) eq_refl).
Defined.

(** C7, as stated, fails: [FromBytes] accepts one byte with a declared
    count of 16 bits, and on that field [SetBit(9)] passes the range test
    and then indexes the buffer at byte 1: the call panics, it neither
    completes nor returns an error. *)
Lemma C7_counterexample :
  ~ exists (e : option error) (bf' : BitField),
      littleEndian_SetBit 9 (littleEndian_FromBytes [0x00] 16) = Some (e, bf').
Proof.
  intros (e & bf' & H). vm_compute in H. discriminate H.
Qed.

(** C7, amended. Lazy construction validation: for every byte sequence and
    every declared bit count, [FromBytes] builds the field with exactly
    those bytes and that count, with no validation; on the resulting field
    each of [SetBit], [ClearBit], [ToggleBit] and [TestBit] at a position
    [pos] returns [OutOfRange] when [pos >= bit_count], completes with a
    [nil] error when [pos < bit_count] lies inside the buffer, and panics,
    returning nothing, when [pos < bit_count] lies beyond the buffer.  So a
    field whose declared count exceeds its buffer fails at the first access
    beyond the buffer, by a panic and not by an error value. *)
Theorem C7_lazy_validation (bm : Manipulator) (bytes : list Z) (size0 pos : Z) :
  0 <= pos ->
  let bf := iface_FromBytes bm bytes size0 in
  Bytes bf = bytes /\ Size bf = size0 /\ Error bf = None /\ manipulator bf = bm
  /\ (size0 <= pos ->
        iface_SetBit bm pos bf = Some (Some OutOfRange, bf)
        /\ iface_ClearBit bm pos bf = Some (Some OutOfRange, bf)
        /\ iface_ToggleBit bm pos bf = Some (Some OutOfRange, bf)
        /\ iface_TestBit bm pos bf = Some ((false, Some OutOfRange), bf))
  /\ (pos < size0 -> pos < 8 * Z.of_nat (length bytes) ->
        (exists bf', iface_SetBit bm pos bf = Some (None, bf'))
        /\ (exists bf', iface_ClearBit bm pos bf = Some (None, bf'))
        /\ (exists bf', iface_ToggleBit bm pos bf = Some (None, bf'))
        /\ (exists b, iface_TestBit bm pos bf = Some ((b, None), bf)))
  /\ (pos < size0 -> 8 * Z.of_nat (length bytes) <= pos ->
        iface_SetBit bm pos bf = None
        /\ iface_ClearBit bm pos bf = None
        /\ iface_ToggleBit bm pos bf = None
        /\ iface_TestBit bm pos bf = None).
Proof.
  intros Hpos bf.
  assert (Hdata : data bf = bytes) by (destruct bm; reflexivity).
  assert (Hsize : size bf = size0) by (destruct bm; reflexivity).
  split; [exact Hdata|]. split; [exact Hsize|].
  split; [destruct bm; reflexivity|]. split; [destruct bm; reflexivity|].
  split; [|split].
  - intros Hout. rewrite <- Hsize in Hout. repeat split.
    + apply SetBit_out_of_range; assumption.
    + apply ClearBit_out_of_range; assumption.
    + apply ToggleBit_out_of_range; assumption.
    + apply TestBit_out_of_range; assumption.
  - intros Hin Hbuf. rewrite <- Hsize in Hin. rewrite <- Hdata in Hbuf.
    repeat split; eexists.
    + apply SetBit_in_buffer; lia.
    + apply ClearBit_in_buffer; lia.
    + apply ToggleBit_in_buffer; lia.
    + apply TestBit_in_buffer; lia.
  - intros Hin Hbuf. rewrite <- Hsize in Hin. rewrite <- Hdata in Hbuf.
    repeat split.
    + apply SetBit_beyond_buffer; assumption.
    + apply ClearBit_beyond_buffer; assumption.
    + apply ToggleBit_beyond_buffer; assumption.
    + apply TestBit_beyond_buffer; assumption.
Qed.

Lemma C7_lazy_validation_witness :
  0 <= 9
  /\ iface_SetBit LittleEndian 9 (iface_FromBytes LittleEndian [0x00] 16) = None
  /\ iface_SetBit LittleEndian 9 (iface_FromBytes LittleEndian [0x00; 0x00] 4)
     = Some (Some OutOfRange, iface_FromBytes LittleEndian [0x00; 0x00] 4).
Proof.
  assert (H9 : 0 <= 9) by lia.
  split; [exact H9|]. split.
  - refine (proj1 (proj2 (proj2 (proj2 (proj2 (proj2 (proj2
              (C7_lazy_validation LittleEndian [0x00] 16 9 H9)))))) _ _));
      simpl; lia.
  - refine (proj1 (proj1 (proj2 (proj2 (proj2 (proj2
              (C7_lazy_validation LittleEndian [0x00; 0x00] 4 9 H9))))) _));
      simpl; lia.
Defined.

(** C8. Frame of insert: an in-bounds [InsertUint64(offset, size, value)]
    of either strategy succeeds and changes only the buffer, whose length
    stays; every logical position outside [offset, offset + size) holds
    after the insert the bit it held before, in range ([TestBit] returns the
    same bit) and beyond (the padding bits of the last byte); the positions
    inside the group hold the low [size] bits of the value. *)
Theorem C8_insert_frame (bm : Manipulator) (bf : BitField) (offset size0 value : Z) :
  well_formed bf ->
  0 <= offset -> 0 <= size0 <= 64 -> offset + size0 <= size bf ->
  exists bf',
    iface_InsertUint64 bm offset size0 value bf = Some (None, bf')
    /\ bf' = set_data bf (data bf')
    /\ length (data bf') = length (data bf)
    /\ (forall p, 0 <= p < size bf -> ~ (offset <= p < offset + size0) ->
          exists b, manipulator_TestBit p bf = Some ((b, None), bf)
                    /\ manipulator_TestBit p bf' = Some ((b, None), bf'))
    /\ (forall q, 0 <= q -> ~ (offset <= q < offset + size0) ->
          bit_at (manipulator bf) (data bf') q = bit_at (manipulator bf) (data bf) q)
    /\ (forall q, offset <= q < offset + size0 ->
          bit_at (manipulator bf) (data bf') q = group_bit bm offset size0 value q).
Proof.
  intros Hwf Hoff Hs Hend.
  destruct (InsertUint64_in_bounds bm bf offset size0 value Hwf Hoff Hs Hend)
    as (d' & Hins & Hlen & Hok & Hbits).
  destruct Hwf as (Hsz & Hcov & _). unfold covers in Hcov.
  exists (set_data bf d'). split; [exact Hins|]. split; [reflexivity|].
  split; [exact Hlen|]. split; [|split].
  - intros p Hp Hout. exists (bit_at (manipulator bf) (data bf) p).
    unfold manipulator_TestBit. split.
    + apply TestBit_in_buffer; lia.
    + rewrite TestBit_in_buffer by (simpl; lia). simpl.
      rewrite Hbits by lia. case_cmp.
  - intros q Hq Hout. simpl. rewrite Hbits by lia. case_cmp.
  - intros q Hq. simpl. rewrite Hbits by lia. case_cmp.
Qed.

Lemma C8_insert_frame_witness :
  well_formed (littleEndian_New 32)
  /\ exists bf',
       iface_InsertUint64 LittleEndian 4 16 0xAAAA (littleEndian_New 32) = Some (None, bf')
       /\ length (data bf') = length (data (littleEndian_New 32)).
Proof.
  assert (Hwf : well_formed (littleEndian_New 32))
    by (apply (New_well_formed LittleEndian); lia).
  split; [exact Hwf|].
  destruct (C8_insert_frame LittleEndian (littleEndian_New 32) 4 16 0xAAAA Hwf)
    as (bf' & Hins & _ & Hlen & _); [lia | lia | simpl; lia |].
  exists bf'. split; [exact Hins | exact Hlen].
Defined.

(** C9. Involution and idempotence of the single-bit mutations: at every
    in-range position of a field whose buffer holds every declared bit, for
    either strategy, [ToggleBit] twice gives back the field as it was,
    buffer included; a second [SetBit] leaves the field as the first one
    made it, and so does a second [ClearBit]. *)
Theorem C9_idempotence (bm : Manipulator) (bf : BitField) (pos : Z) :
  covers bf -> 0 <= pos < size bf ->
  (exists bf1, iface_ToggleBit bm pos bf = Some (None, bf1)
               /\ iface_ToggleBit bm pos bf1 = Some (None, bf))
  /\ (exists bf1, iface_SetBit bm pos bf = Some (None, bf1)
                  /\ iface_SetBit bm pos bf1 = Some (None, bf1))
  /\ (exists bf1, iface_ClearBit bm pos bf = Some (None, bf1)
                  /\ iface_ClearBit bm pos bf1 = Some (None, bf1)).
Proof.
  intros Hcov Hpos. unfold covers in Hcov.
  destruct (lookup_byte (data bf) pos ltac:(lia)) as [b Hb].
  split; [|split]; eexists; (split; [|cbv zeta]).
  - apply ToggleBit_in_buffer; lia.
  - rewrite ToggleBit_in_buffer by (simpl; rewrite ?length_mask_byte; lia).
    simpl. rewrite (mask_byte_twice _ _ _ _ b Hb), lxor_twice.
    rewrite list_insert_id by exact Hb. destruct bf; reflexivity.
  - apply SetBit_in_buffer; lia.
  - rewrite SetBit_in_buffer by (simpl; rewrite ?length_mask_byte; lia).
    simpl. rewrite (mask_byte_twice _ _ _ _ b Hb), lor_twice.
    rewrite (mask_byte_once _ _ _ _ b Hb). reflexivity.
  - apply ClearBit_in_buffer; lia.
  - rewrite ClearBit_in_buffer by (simpl; rewrite ?length_mask_byte; lia).
    simpl. rewrite (mask_byte_twice _ _ _ _ b Hb), ldiff_twice.
    rewrite (mask_byte_once _ _ _ _ b Hb). reflexivity.
Qed.

Lemma C9_idempotence_witness :
  covers (bigEndian_FromBytes [0xAA; 0x55] 16)
  /\ exists bf1,
       iface_ToggleBit BigEndian 9 (bigEndian_FromBytes [0xAA; 0x55] 16) = Some (None, bf1)
       /\ iface_ToggleBit BigEndian 9 bf1
          = Some (None, bigEndian_FromBytes [0xAA; 0x55] 16).
Proof.
  assert (Hcov : covers (bigEndian_FromBytes [0xAA; 0x55] 16))
    by (unfold covers; simpl; lia).
  split; [exact Hcov|].
  apply (C9_idempotence BigEndian (bigEndian_FromBytes [0xAA; 0x55] 16) 9 Hcov).
  simpl. lia.
Defined.

(** C10. Version 1 and the little-endian strategy of version 2 behave
    alike on their shared operations: on the same buffer and bit count, at
    every position, [SetBit], [ClearBit] and [ToggleBit] end with the same
    buffer and the same error (or both panic), [TestBit] returns the same
    bit and the same error, and [InsertUint], given the field itself as its
    manipulator, ends with the same buffer and the same error as
    [InsertUint64]. *)
Theorem C10_v1_v2_equivalence (bf : V1.BitField) (pos offset size0 value : Z) :
  Forall byte_ok (V1.bits bf) ->
  lift_v2 (V1.SetBit pos bf) = littleEndian_SetBit pos (to_v2 bf)
  /\ lift_v2 (V1.ClearBit pos bf) = littleEndian_ClearBit pos (to_v2 bf)
  /\ lift_v2 (V1.ToggleBit pos bf) = littleEndian_ToggleBit pos (to_v2 bf)
  /\ lift_v2 (V1.TestBit pos bf) = littleEndian_TestBit pos (to_v2 bf)
  /\ lift_v2 (V1.InsertUint V1.self offset size0 value bf)
     = littleEndian_InsertUint64 offset size0 value (to_v2 bf).
Proof.
  intros Hok. repeat split.
  - apply V1_SetBit_eq.
  - apply V1_ClearBit_eq. assumption.
  - apply V1_ToggleBit_eq.
  - apply V1_TestBit_eq.
  - unfold V1.InsertUint, littleEndian_InsertUint64. simpl size.
    destruct (_ || _); [reflexivity|].
    apply V1_InsertUint_loop_eq. assumption.
Qed.

Lemma C10_v1_v2_equivalence_witness :
  Forall byte_ok (V1.bits (V1.mkBitField [0x00; 0xFF] 16))
  /\ lift_v2 (V1.InsertUint V1.self 4 8 0xA5 (V1.mkBitField [0x00; 0xFF] 16))
     = littleEndian_InsertUint64 4 8 0xA5 (to_v2 (V1.mkBitField [0x00; 0xFF] 16)).
Proof.
  assert (Hok : Forall byte_ok (V1.bits (V1.mkBitField [0x00; 0xFF] 16))).
  { simpl. repeat constructor; unfold byte_ok; lia. }
  split; [exact Hok|].
  exact (proj2 (proj2 (proj2 (proj2
           (C10_v1_v2_equivalence (V1.mkBitField [0x00; 0xFF] 16) 0 4 8 0xA5 Hok))))).
Defined.

End Specification.

(** * Further properties of the code *)

(** ** Closed forms of the mutations, and what every call preserves *)

Section Shape.

Import V2.

Lemma mutation_closed_form bm pos bf :
  iface_SetBit bm pos bf
  = (if size bf <=? pos then Some (Some OutOfRange, bf)
     else match data bf !! Z.to_nat (pos / 8) with
          | Some b => Some (None, set_data bf (<[Z.to_nat (pos / 8) :=
                                Z.lor b (2 ^ bitIndex bm pos)]> (data bf)))
          | None => None
          end)
  /\ iface_ClearBit bm pos bf
    = (if size bf <=? pos then Some (Some OutOfRange, bf)
       else match data bf !! Z.to_nat (pos / 8) with
            | Some b => Some (None, set_data bf (<[Z.to_nat (pos / 8) :=
                                  Z.ldiff b (2 ^ bitIndex bm pos)]> (data bf)))
            | None => None
            end)
  /\ iface_ToggleBit bm pos bf
    = (if size bf <=? pos then Some (Some OutOfRange, bf)
       else match data bf !! Z.to_nat (pos / 8) with
            | Some b => Some (None, set_data bf (<[Z.to_nat (pos / 8) :=
                                  Z.lxor b (2 ^ bitIndex bm pos)]> (data bf)))
            | None => None
            end).
Proof.
  pose proof (bitIndex_range bm pos) as Hk.
  rewrite <- !(shl8_pow2 (bitIndex bm pos)) by exact Hk.
  destruct bm; simpl bitIndex; repeat split;
    unfold iface_SetBit, iface_ClearBit, iface_ToggleBit,
      littleEndian_SetBit, littleEndian_ClearBit, littleEndian_ToggleBit,
      bigEndian_SetBit, bigEndian_ClearBit, bigEndian_ToggleBit,
      calcBitPosLE, calcBitPosBE, bind, ret, update;
    destruct (size bf <=? pos); try reflexivity;
    destruct (data bf !! Z.to_nat (pos / 8)); reflexivity.
Qed.

Lemma same_shape_refl bf : same_shape bf bf.
Proof. repeat split; auto. Qed.

Lemma same_shape_trans bf1 bf2 bf3 :
  same_shape bf1 bf2 -> same_shape bf2 bf3 -> same_shape bf1 bf3.
Proof.
  intros (H1 & H2 & H3 & H4) (H1' & H2' & H3' & H4').
  repeat split; try congruence. auto.
Qed.

Lemma same_shape_set_err bf bf' e : same_shape bf bf' -> same_shape bf (set_err bf' e).
Proof. intros (H1 & H2 & H3 & H4). repeat split; assumption. Qed.

Lemma same_shape_insert_byte bf j b b' :
  data bf !! j = Some b -> (byte_ok b -> byte_ok b') ->
  same_shape bf (set_data bf (<[j := b']> (data bf))).
Proof.
  intros Hb Hok. repeat split; simpl.
  - apply length_insert.
  - intros Hall. apply Forall_insert; [assumption|].
    apply Hok. eapply Forall_lookup_1; eassumption.
Qed.

Lemma mutation_same_shape bm pos bf e bf' :
  iface_SetBit bm pos bf = Some (e, bf')
  \/ iface_ClearBit bm pos bf = Some (e, bf')
  \/ iface_ToggleBit bm pos bf = Some (e, bf') ->
  same_shape bf bf'.
Proof.
  destruct (mutation_closed_form bm pos bf) as (Hset & Hclear & Htoggle).
  pose proof (bitIndex_range bm pos) as Hk.
  rewrite Hset, Hclear, Htoggle.
  destruct (size bf <=? pos).
  - intros [H|[H|H]]; injection H as _ <-; apply same_shape_refl.
  - destruct (data bf !! Z.to_nat (pos / 8)) as [b|] eqn:Hb.
    + intros [H|[H|H]]; injection H as _ <-;
        apply (same_shape_insert_byte bf _ b); try assumption; intros Hbok;
        [apply byte_ok_lor | apply byte_ok_ldiff | apply byte_ok_lxor]; assumption.
    + intros [H|[H|H]]; discriminate.
Qed.

Lemma littleEndian_InsertUint64_loop_shape offset value n : forall i bf e bf',
  littleEndian_InsertUint64_loop n i offset value bf = Some (e, bf') ->
  same_shape bf bf'.
Proof.
  induction n as [|n IH]; intros i bf e bf'; cbn [littleEndian_InsertUint64_loop].
  - unfold ret. intros [= _ <-]. apply same_shape_refl.
  - unfold bind.
    destruct ((if Z.land (Z.shiftr value i) 1 =? 1
               then manipulator_SetBit (wrap64 (offset + i))
               else manipulator_ClearBit (wrap64 (offset + i))) bf)
      as [[e1 bf1]|] eqn:Hstep; [|discriminate].
    assert (Hshape : same_shape bf bf1).
    { apply (mutation_same_shape (manipulator bf) (wrap64 (offset + i)) bf e1).
      unfold manipulator_SetBit, manipulator_ClearBit in Hstep.
      destruct (_ =? 1); auto. }
    destruct e1 as [e1|].
    + unfold ret. intros [= _ <-]. exact Hshape.
    + intros Hrest. eapply same_shape_trans; [exact Hshape | eapply IH; exact Hrest].
Qed.

Lemma bigEndian_InsertUint64_loop_shape offset size0 value i : forall bf e bf',
  bigEndian_InsertUint64_loop i offset size0 value bf = Some (e, bf') ->
  same_shape bf bf'.
Proof.
  induction i as [|i IH]; intros bf e bf'; cbn [bigEndian_InsertUint64_loop].
  - unfold ret. intros [= _ <-]. apply same_shape_refl.
  - unfold bind.
    set (pos := wrap64 (offset + Z.of_nat (S i) - 1)).
    destruct ((if Z.land (Z.shiftr value (size0 - Z.of_nat (S i))) 1 =? 1
               then manipulator_SetBit pos
               else manipulator_ClearBit pos) bf)
      as [[e1 bf1]|] eqn:Hstep; [|discriminate].
    assert (Hshape : same_shape bf bf1).
    { apply (mutation_same_shape (manipulator bf) pos bf e1).
      unfold manipulator_SetBit, manipulator_ClearBit in Hstep.
      destruct (_ =? 1); auto. }
    destruct e1 as [e1|].
    + unfold ret. intros [= _ <-]. exact Hshape.
    + intros Hrest. eapply same_shape_trans; [exact Hshape | eapply IH; exact Hrest].
Qed.

Lemma InsertUint64_same_shape bm offset size0 value bf e bf' :
  iface_InsertUint64 bm offset size0 value bf = Some (e, bf') -> same_shape bf bf'.
Proof.
  destruct bm; simpl; unfold littleEndian_InsertUint64, bigEndian_InsertUint64;
    destruct (_ || _).
  - unfold ret. intros [= _ <-]. apply same_shape_refl.
  - apply littleEndian_InsertUint64_loop_shape.
  - unfold ret. intros [= _ <-]. apply same_shape_refl.
  - apply bigEndian_InsertUint64_loop_shape.
Qed.

Lemma latched_same_shape op bf e bf' :
  (forall e1 bf1, op bf = Some (e1, bf1) -> same_shape bf bf1) ->
  latched op bf = Some (e, bf') -> same_shape bf bf'.
Proof.
  intros Hop. unfold latched. destruct (err bf).
  - intros [= _ <-]. apply same_shape_refl.
  - destruct (op bf) as [[e1 bf1]|] eqn:Hrun; [|discriminate].
    intros [= _ <-]. apply same_shape_set_err. eapply Hop. reflexivity.
Qed.

Lemma perform_same_shape c bf r bf' :
  perform c bf = Some (r, bf') -> same_shape bf bf'.
Proof.
  assert (Hwrap : forall (op : exec BitField (option error)),
             (forall e1 bf1, op bf = Some (e1, bf1) -> same_shape bf bf1) ->
             bind (latched op) (fun e => ret (RetError e)) bf = Some (r, bf') ->
             same_shape bf bf').
  { intros op Hop. unfold bind.
    destruct (latched op bf) as [[e1 bf1]|] eqn:Hrun; [|discriminate].
    unfold ret. intros [= _ <-]. eapply latched_same_shape; eassumption. }
  destruct c; simpl.
  - apply Hwrap. intros e1 bf1 Hop. eapply mutation_same_shape; eauto.
  - apply Hwrap. intros e1 bf1 Hop. eapply mutation_same_shape; eauto.
  - apply Hwrap. intros e1 bf1 Hop. eapply mutation_same_shape; eauto.
  - apply Hwrap. intros e1 bf1 Hop. eapply InsertUint64_same_shape; eauto.
  - intros Hrun.
    apply (perform_read_state (CallTestBit _) bf bf' r eq_refl) in Hrun.
    subst bf'. apply same_shape_refl.
  - intros Hrun.
    apply (perform_read_state (CallExtractUint64 _ _) bf bf' r eq_refl) in Hrun.
    subst bf'. apply same_shape_refl.
Qed.

End Shape.

(** ** Buffers are determined by their bits *)

Section Extensionality.

Import V2.

(** Every pair of a byte index and an in-byte bit index is addressed by a
    position. *)
Lemma position_surjective bm (j : nat) k :
  0 <= k < 8 ->
  exists q, 0 <= q /\ Z.to_nat (q / 8) = j /\ bitIndex bm q = k.
Proof.
  intros Hk.
  exists (8 * Z.of_nat j + match bm with LittleEndian => k | BigEndian => 7 - k end).
  assert (Hdiv : forall r, 0 <= r < 8 -> (8 * Z.of_nat j + r) / 8 = Z.of_nat j
                                        /\ (8 * Z.of_nat j + r) mod 8 = r).
  { intros r Hr. rewrite Z.mul_comm. split.
    - rewrite Z.div_add_l by lia. rewrite Z.div_small by lia. lia.
    - rewrite Z.add_comm, Z.mod_add by lia. apply Z.mod_small. lia. }
  destruct bm; simpl.
  - destruct (Hdiv k Hk) as [-> ->]. split; [lia|]. split; [lia | reflexivity].
  - destruct (Hdiv (7 - k) ltac:(lia)) as [-> ->]. split; [lia|]. split; lia.
Qed.

Lemma buffer_ext bm (d d' : list Z) :
  length d = length d' -> Forall byte_ok d -> Forall byte_ok d' ->
  (forall q, 0 <= q -> bit_at bm d q = bit_at bm d' q) ->
  d = d'.
Proof.
  intros Hlen Hok Hok' Hbits.
  apply (list_eq_same_length d d' (length d)); [congruence | reflexivity |].
  intros j b b' Hj Hb Hb'.
  assert (Hbok : byte_ok b) by exact (Forall_lookup_1 _ _ _ _ Hok Hb).
  assert (Hbok' : byte_ok b') by exact (Forall_lookup_1 _ _ _ _ Hok' Hb').
  apply Z.bits_inj'. intros k Hk.
  destruct (Z_lt_le_dec k 8) as [Hlow|Hhigh].
  - destruct (position_surjective bm j k ltac:(lia)) as (q & Hq & Hbyte & Hidx).
    specialize (Hbits q Hq). unfold bit_at in Hbits.
    rewrite Hbyte, Hb, Hb', Hidx in Hbits. exact Hbits.
  - rewrite !byte_ok_high by assumption. reflexivity.
Qed.

Lemma set_data_same bf : set_data bf (data bf) = bf.
Proof. destruct bf. reflexivity. Qed.

End Extensionality.

(** ** Construction and single bits *)

Section FurtherSingleBit.

Import V2.




(** Where [n + 7] wraps, [New(n)] allocates no byte at all for its [n]
    declared bits, and every single-bit call at a declared position
    panics. *)
Theorem New_wraps (bm : Manipulator) (n pos : Z) :
  2 ^ 64 - 7 <= n < 2 ^ 64 -> 0 <= pos < n ->
  Size (iface_New bm n) = n
  /\ Bytes (iface_New bm n) = []
  /\ iface_SetBit bm pos (iface_New bm n) = None
  /\ iface_ClearBit bm pos (iface_New bm n) = None
  /\ iface_ToggleBit bm pos (iface_New bm n) = None
  /\ iface_TestBit bm pos (iface_New bm n) = None.
Proof.
  intros Hn Hpos.
  assert (Hbytes : data (iface_New bm n) = []).
  { assert (Hw : wrap64 (n + 7) / 8 = 0).
    { unfold wrap64. replace (n + 7) with (n + 7 - 2 ^ 64 + 1 * 2 ^ 64) by lia.
      rewrite Z.mod_add by lia. rewrite Z.mod_small by lia.
      apply Z.div_small. lia. }
    destruct bm; simpl; rewrite Hw; reflexivity. }
  assert (Hsize : size (iface_New bm n) = n) by (destruct bm; reflexivity).
  split; [exact Hsize|]. split; [exact Hbytes|].
  repeat split;
    [apply SetBit_beyond_buffer | apply ClearBit_beyond_buffer
    |apply ToggleBit_beyond_buffer | apply TestBit_beyond_buffer];
    rewrite ?Hsize, ?Hbytes; simpl; lia.
Qed.

Lemma New_wraps_witness :
  2 ^ 64 - 7 <= 2 ^ 64 - 1 < 2 ^ 64 /\ 0 <= 0 < 2 ^ 64 - 1
  /\ Bytes (iface_New LittleEndian (2 ^ 64 - 1)) = []
  /\ iface_SetBit LittleEndian 0 (iface_New LittleEndian (2 ^ 64 - 1)) = None.
Proof.
  assert (Hn : 2 ^ 64 - 7 <= 2 ^ 64 - 1 < 2 ^ 64) by lia.
  assert (Hpos : 0 <= 0 < 2 ^ 64 - 1) by lia.
  destruct (New_wraps LittleEndian (2 ^ 64 - 1) 0 Hn Hpos) as (_ & Hb & Hs & _).
  repeat split; try lia; assumption.
Defined.

(** Writing one bit and reading any bit: after [SetBit(pos)] position [pos]
    tests as 1, after [ClearBit(pos)] as 0, after [ToggleBit(pos)] as the
    negation of what it was; every other in-range position tests as
    before. *)
Theorem write_then_TestBit (bm : Manipulator) (bf : BitField) (pos q : Z) :
  covers bf -> 0 <= pos < size bf -> 0 <= q < size bf ->
  exists b bf_s bf_c bf_t,
    iface_TestBit bm q bf = Some ((b, None), bf)
    /\ iface_SetBit bm pos bf = Some (None, bf_s)
    /\ iface_TestBit bm q bf_s = Some ((if q =? pos then true else b, None), bf_s)
    /\ iface_ClearBit bm pos bf = Some (None, bf_c)
    /\ iface_TestBit bm q bf_c = Some ((if q =? pos then false else b, None), bf_c)
    /\ iface_ToggleBit bm pos bf = Some (None, bf_t)
    /\ iface_TestBit bm q bf_t = Some ((if q =? pos then negb b else b, None), bf_t).
Proof.
  intros Hcov Hpos Hq. unfold covers in Hcov.
  exists (bit_at bm (data bf) q),
    (set_data bf (mask_byte bm Z.lor (data bf) pos)),
    (set_data bf (mask_byte bm Z.ldiff (data bf) pos)),
    (set_data bf (mask_byte bm Z.lxor (data bf) pos)).
  split; [apply TestBit_in_buffer; lia|].
  split; [apply SetBit_in_buffer; lia|].
  split; [rewrite TestBit_in_buffer by (simpl; rewrite ?length_mask_byte; lia);
          simpl; rewrite bit_at_set by lia; reflexivity|].
  split; [apply ClearBit_in_buffer; lia|].
  split; [rewrite TestBit_in_buffer by (simpl; rewrite ?length_mask_byte; lia);
          simpl; rewrite bit_at_clear by lia; reflexivity|].
  split; [apply ToggleBit_in_buffer; lia|].
  rewrite TestBit_in_buffer by (simpl; rewrite ?length_mask_byte; lia).
  simpl. rewrite bit_at_toggle by lia. reflexivity.
Qed.

Lemma write_then_TestBit_witness :
  covers (bigEndian_FromBytes [0xAA; 0x55] 16)
  /\ exists b bf_t,
       iface_TestBit BigEndian 9 (bigEndian_FromBytes [0xAA; 0x55] 16) = Some ((b, None), bigEndian_FromBytes [0xAA; 0x55] 16)
       /\ iface_ToggleBit BigEndian 9 (bigEndian_FromBytes [0xAA; 0x55] 16) = Some (None, bf_t)
       /\ iface_TestBit BigEndian 9 bf_t = Some ((if 9 =? 9 then negb b else b, None), bf_t).
Proof.
  assert (Hcov : covers (bigEndian_FromBytes [0xAA; 0x55] 16))
    by (unfold covers; simpl; lia).
  split; [exact Hcov|].
  destruct (write_then_TestBit BigEndian (bigEndian_FromBytes [0xAA; 0x55] 16) 9 9 Hcov)
    as (b & _ & _ & bf_t & Ht & _ & _ & _ & _ & Htog & Hread); [simpl; lia | simpl; lia |].
  exists b, bf_t. repeat split; assumption.
Defined.

(** The two orderings name the same physical bits: on a field whose size
    is a whole number of bytes, a big-endian single-bit call at [pos] is the
    little-endian call at the mirrored position of the same byte. *)
Theorem bigEndian_is_mirrored_littleEndian (bf : BitField) (pos : Z) :
  size bf mod 8 = 0 -> 0 <= pos ->
  bigEndian_SetBit pos bf = littleEndian_SetBit (mirror pos) bf
  /\ bigEndian_ClearBit pos bf = littleEndian_ClearBit (mirror pos) bf
  /\ bigEndian_ToggleBit pos bf = littleEndian_ToggleBit (mirror pos) bf
  /\ bigEndian_TestBit pos bf = littleEndian_TestBit (mirror pos) bf.
Proof.
  intros Hsize Hpos.
  assert (Hcalc : calcBitPosBE bf pos = calcBitPosLE bf (mirror pos)).
  { unfold calcBitPosBE, calcBitPosLE, mirror.
    pose proof (Z.mod_pos_bound pos 8 ltac:(lia)) as Hm.
    pose proof (Z.div_mod pos 8 ltac:(lia)) as Hd.
    pose proof (Z.div_mod (size bf) 8 ltac:(lia)) as Hs.
    assert (Hdiv : (8 * (pos / 8) + (7 - pos mod 8)) / 8 = pos / 8).
    { rewrite Z.mul_comm, Z.div_add_l by lia.
      rewrite (Z.div_small (7 - pos mod 8) 8) by lia. lia. }
    assert (Hmod : (8 * (pos / 8) + (7 - pos mod 8)) mod 8 = 7 - pos mod 8).
    { rewrite Z.mul_comm, Z.add_comm, Z.mod_add by lia. apply Z.mod_small. lia. }
    rewrite Hdiv, Hmod.
    destruct (Z.leb_spec (size bf) pos), (Z.leb_spec (size bf) (8 * (pos / 8) + (7 - pos mod 8)));
      try reflexivity; exfalso; lia. }
  unfold bigEndian_SetBit, bigEndian_ClearBit, bigEndian_ToggleBit, bigEndian_TestBit,
    littleEndian_SetBit, littleEndian_ClearBit, littleEndian_ToggleBit,
    littleEndian_TestBit.
  rewrite Hcalc. repeat split; reflexivity.
Qed.

Lemma bigEndian_is_mirrored_littleEndian_witness :
  size (bigEndian_FromBytes [0x00; 0x00] 16) mod 8 = 0 /\ 0 <= 9
  /\ bigEndian_SetBit 9 (bigEndian_FromBytes [0x00; 0x00] 16)
     = littleEndian_SetBit (mirror 9) (bigEndian_FromBytes [0x00; 0x00] 16).
Proof.
  assert (Hs : size (bigEndian_FromBytes [0x00; 0x00] 16) mod 8 = 0) by reflexivity.
  assert (Hp : 0 <= 9) by lia.
  split; [exact Hs|]. split; [exact Hp|].
  exact (proj1 (bigEndian_is_mirrored_littleEndian _ 9 Hs Hp)).
Defined.

End FurtherSingleBit.

(** ** Groups: what extract returns, and how inserts compose *)

Section FurtherGroups.

Import V2.

Lemma below_pow2 r s :
  0 <= s -> 0 <= r -> (forall j, s <= j -> Z.testbit r j = false) -> r < 2 ^ s.
Proof.
  intros Hs Hr Hhigh.
  assert (Heq : r = r mod 2 ^ s).
  { apply Z.bits_inj'. intros j Hj.
    destruct (Z_lt_le_dec j s).
    - rewrite Z.mod_pow2_bits_low by lia. reflexivity.
    - rewrite Z.mod_pow2_bits_high by lia. apply Hhigh. lia. }
  rewrite Heq. apply Z.mod_pos_bound. apply Z.pow_pos_nonneg; lia.
Qed.

Lemma well_formed_set_data bf d :
  well_formed bf -> length d = length (data bf) -> Forall byte_ok d ->
  well_formed (set_data bf d).
Proof.
  intros (Hsz & Hcov & _) Hlen Hok. unfold well_formed, covers in *. simpl.
  rewrite Hlen. auto.
Qed.

(** An in-bounds extract returns a value below [2^size] whose bit [j] is
    what [TestBit] returns at the position of the group that holds bit [j]:
    [offset + j] little-endian, [offset + size - 1 - j] big-endian; the
    field is left as it was. *)
Theorem ExtractUint64_reads_group (bm : Manipulator) (bf : BitField) (offset size0 : Z) :
  well_formed bf -> manipulator bf = bm ->
  0 <= offset -> 0 <= size0 <= 64 -> offset + size0 <= size bf ->
  exists r,
    iface_ExtractUint64 bm offset size0 bf = Some ((r, None), bf)
    /\ 0 <= r < 2 ^ size0
    /\ forall j, 0 <= j < size0 ->
         iface_TestBit bm (group_position bm offset size0 j) bf
         = Some ((Z.testbit r j, None), bf).
Proof.
  intros (Hsz & Hcov & Hok) Hbm Hoff Hs Hend.
  destruct (ExtractUint64_in_bounds bm bf offset size0 Hsz Hcov Hoff Hs Hend)
    as (r & Hrun & Hpos & Hbits).
  exists r. split; [exact Hrun|]. split.
  - split; [exact Hpos|]. apply below_pow2; [lia | exact Hpos |].
    intros j Hj. rewrite Hbits by lia.
    destruct (Z.ltb_spec j size0); [lia | reflexivity].
  - intros j Hj. unfold covers in Hcov.
    rewrite TestBit_in_buffer by (destruct bm; simpl; lia).
    rewrite Hbits by lia. rewrite Hbm. unfold group_position.
    destruct (Z.ltb_spec j size0); [reflexivity | lia].
Qed.

Lemma ExtractUint64_reads_group_witness :
  well_formed (bigEndian_FromBytes [0xA0; 0xAA; 0x0A; 0x00] 32)
  /\ exists r,
       iface_ExtractUint64 BigEndian 4 16 (bigEndian_FromBytes [0xA0; 0xAA; 0x0A; 0x00] 32)
       = Some ((r, None), bigEndian_FromBytes [0xA0; 0xAA; 0x0A; 0x00] 32)
       /\ 0 <= r < 2 ^ 16.
Proof.
  assert (Hwf : well_formed (bigEndian_FromBytes [0xA0; 0xAA; 0x0A; 0x00] 32)).
  { split; [|split].
    - red. simpl. lia.
    - red. simpl. lia.
    - simpl. repeat constructor; unfold byte_ok; lia. }
  split; [exact Hwf|].
  destruct (ExtractUint64_reads_group BigEndian _ 4 16 Hwf eq_refl)
    as (r & Hrun & Hr & _); [lia | lia | simpl; lia |].
  exists r. split; assumption.
Defined.

(** Extract, then insert what was extracted: the field, buffer included, is
    exactly what it was. *)
Theorem insert_extracted_is_identity (bm : Manipulator) (bf : BitField) (offset size0 : Z) :
  well_formed bf -> manipulator bf = bm ->
  0 <= offset -> 0 <= size0 <= 64 -> offset + size0 <= size bf ->
  exists r,
    iface_ExtractUint64 bm offset size0 bf = Some ((r, None), bf)
    /\ iface_InsertUint64 bm offset size0 r bf = Some (None, bf).
Proof.
  intros Hwf Hbm Hoff Hs Hend.
  pose proof Hwf as (Hsz & Hcov & Hok).
  destruct (ExtractUint64_in_bounds bm bf offset size0 Hsz Hcov Hoff Hs Hend)
    as (r & Hrun & Hpos & Hr).
  destruct (InsertUint64_in_bounds bm bf offset size0 r Hwf Hoff Hs Hend)
    as (d' & Hins & Hlen & Hok' & Hbits).
  exists r. split; [exact Hrun|]. rewrite Hins.
  assert (Hd : d' = data bf).
  { apply (buffer_ext (manipulator bf)); try assumption.
    intros q Hq. rewrite Hbits by assumption.
    destruct (Z.leb_spec offset q), (Z.ltb_spec q (offset + size0)); simpl;
      try reflexivity.
    rewrite Hbm. destruct bm; unfold group_bit; rewrite Hr by lia.
    - destruct (Z.ltb_spec (q - offset) size0); [|lia]. simpl.
      rewrite Hbm. f_equal. lia.
    - destruct (Z.ltb_spec (size0 - 1 - (q - offset)) size0); [|lia]. simpl.
      rewrite Hbm. f_equal. lia. }
  rewrite Hd, set_data_same. reflexivity.
Qed.

Lemma insert_extracted_is_identity_witness :
  well_formed (littleEndian_FromBytes [0xA0; 0xAA; 0x0A; 0x00] 32)
  /\ exists r,
       iface_ExtractUint64 LittleEndian 4 16 (littleEndian_FromBytes [0xA0; 0xAA; 0x0A; 0x00] 32)
       = Some ((r, None), littleEndian_FromBytes [0xA0; 0xAA; 0x0A; 0x00] 32)
       /\ iface_InsertUint64 LittleEndian 4 16 r (littleEndian_FromBytes [0xA0; 0xAA; 0x0A; 0x00] 32)
          = Some (None, littleEndian_FromBytes [0xA0; 0xAA; 0x0A; 0x00] 32).
Proof.
  assert (Hwf : well_formed (littleEndian_FromBytes [0xA0; 0xAA; 0x0A; 0x00] 32)).
  { split; [|split].
    - red. simpl. lia.
    - red. simpl. lia.
    - simpl. repeat constructor; unfold byte_ok; lia. }
  split; [exact Hwf|].
  apply (insert_extracted_is_identity LittleEndian _ 4 16 Hwf eq_refl);
    [lia | lia | simpl; lia].
Defined.

(** Two in-bounds inserts with the same buffer bits as result have the
    same result. *)
Lemma insert_results_agree bf (d1 d2 : list Z) :
  length d1 = length (data bf) -> length d2 = length (data bf) ->
  Forall byte_ok d1 -> Forall byte_ok d2 ->
  (forall q, 0 <= q -> bit_at (manipulator bf) d1 q = bit_at (manipulator bf) d2 q) ->
  set_data bf d1 = set_data bf d2.
Proof.
  intros Hl1 Hl2 Hok1 Hok2 Hbits. f_equal.
  apply (buffer_ext (manipulator bf)); try assumption. congruence.
Qed.

(** Inserts into disjoint groups commute: either order ends with the same
    field. *)
Theorem disjoint_inserts_commute (bm : Manipulator) (bf : BitField)
    (offset1 size1 value1 offset2 size2 value2 : Z) :
  well_formed bf ->
  0 <= offset1 -> 0 <= size1 <= 64 -> offset1 + size1 <= size bf ->
  0 <= offset2 -> 0 <= size2 <= 64 -> offset2 + size2 <= size bf ->
  offset1 + size1 <= offset2 \/ offset2 + size2 <= offset1 ->
  exists bf1 bf2 bf',
    iface_InsertUint64 bm offset1 size1 value1 bf = Some (None, bf1)
    /\ iface_InsertUint64 bm offset2 size2 value2 bf1 = Some (None, bf')
    /\ iface_InsertUint64 bm offset2 size2 value2 bf = Some (None, bf2)
    /\ iface_InsertUint64 bm offset1 size1 value1 bf2 = Some (None, bf').
Proof.
  intros Hwf Ho1 Hs1 He1 Ho2 Hs2 He2 Hdisj.
  destruct (InsertUint64_in_bounds bm bf offset1 size1 value1 Hwf Ho1 Hs1 He1)
    as (d1 & Hi1 & Hl1 & Hok1 & Hb1).
  destruct (InsertUint64_in_bounds bm bf offset2 size2 value2 Hwf Ho2 Hs2 He2)
    as (d2 & Hi2 & Hl2 & Hok2 & Hb2).
  destruct (InsertUint64_in_bounds bm (set_data bf d1) offset2 size2 value2
              (well_formed_set_data bf d1 Hwf Hl1 Hok1) Ho2 Hs2 He2)
    as (d12 & Hi12 & Hl12 & Hok12 & Hb12).
  destruct (InsertUint64_in_bounds bm (set_data bf d2) offset1 size1 value1
              (well_formed_set_data bf d2 Hwf Hl2 Hok2) Ho1 Hs1 He1)
    as (d21 & Hi21 & Hl21 & Hok21 & Hb21).
  simpl in *.
  exists (set_data bf d1), (set_data bf d2), (set_data bf d12).
  split; [exact Hi1|]. split; [exact Hi12|]. split; [exact Hi2|].
  rewrite Hi21. do 2 f_equal.
  apply (insert_results_agree bf); try congruence.
  intros q Hq. rewrite Hb21, Hb12, Hb1, Hb2 by assumption.
  destruct (Z.leb_spec offset1 q), (Z.ltb_spec q (offset1 + size1)),
    (Z.leb_spec offset2 q), (Z.ltb_spec q (offset2 + size2));
    simpl; try reflexivity; lia.
Qed.

Lemma disjoint_inserts_commute_witness :
  well_formed (iface_New LittleEndian 32)
  /\ exists bf1 bf2 bf',
       iface_InsertUint64 LittleEndian 0 4 0xA (iface_New LittleEndian 32) = Some (None, bf1)
       /\ iface_InsertUint64 LittleEndian 4 16 0xBEEF bf1 = Some (None, bf')
       /\ iface_InsertUint64 LittleEndian 4 16 0xBEEF (iface_New LittleEndian 32) = Some (None, bf2)
       /\ iface_InsertUint64 LittleEndian 0 4 0xA bf2 = Some (None, bf').
Proof.
  assert (Hwf : well_formed (iface_New LittleEndian 32))
    by (apply New_well_formed; lia).
  split; [exact Hwf|].
  apply (disjoint_inserts_commute LittleEndian _ 0 4 0xA 4 16 0xBEEF Hwf);
    simpl; lia.
Defined.

(** The last insert into a group wins: an insert over a group that an
    earlier insert wrote leaves the field the second insert alone would
    leave. *)
Theorem last_insert_wins (bm : Manipulator) (bf : BitField)
    (offset size0 value1 value2 : Z) :
  well_formed bf ->
  0 <= offset -> 0 <= size0 <= 64 -> offset + size0 <= size bf ->
  exists bf1 bf2,
    iface_InsertUint64 bm offset size0 value1 bf = Some (None, bf1)
    /\ iface_InsertUint64 bm offset size0 value2 bf1 = Some (None, bf2)
    /\ iface_InsertUint64 bm offset size0 value2 bf = Some (None, bf2).
Proof.
  intros Hwf Ho Hs He.
  destruct (InsertUint64_in_bounds bm bf offset size0 value1 Hwf Ho Hs He)
    as (d1 & Hi1 & Hl1 & Hok1 & Hb1).
  destruct (InsertUint64_in_bounds bm bf offset size0 value2 Hwf Ho Hs He)
    as (d2 & Hi2 & Hl2 & Hok2 & Hb2).
  destruct (InsertUint64_in_bounds bm (set_data bf d1) offset size0 value2
              (well_formed_set_data bf d1 Hwf Hl1 Hok1) Ho Hs He)
    as (d12 & Hi12 & Hl12 & Hok12 & Hb12).
  simpl in *.
  exists (set_data bf d1), (set_data bf d12).
  split; [exact Hi1|]. split; [exact Hi12|].
  rewrite Hi2. do 2 f_equal.
  apply (insert_results_agree bf); try congruence.
  intros q Hq. rewrite Hb12, Hb1, Hb2 by assumption.
  destruct (Z.leb_spec offset q), (Z.ltb_spec q (offset + size0));
    simpl; reflexivity.
Qed.

Lemma last_insert_wins_witness :
  well_formed (iface_New BigEndian 16)
  /\ exists bf1 bf2,
       iface_InsertUint64 BigEndian 4 8 0xFF (iface_New BigEndian 16) = Some (None, bf1)
       /\ iface_InsertUint64 BigEndian 4 8 0x5A bf1 = Some (None, bf2)
       /\ iface_InsertUint64 BigEndian 4 8 0x5A (iface_New BigEndian 16) = Some (None, bf2).
Proof.
  assert (Hwf : well_formed (iface_New BigEndian 16))
    by (apply New_well_formed; lia).
  split; [exact Hwf|].
  apply (last_insert_wins BigEndian _ 4 8 0xFF 0x5A Hwf); simpl; lia.
Defined.

(** An in-bounds insert uses the low [size] bits of its value only: the
    value and [value & ((1 << size) - 1)] give the same field. *)
Theorem insert_ignores_high_bits (bm : Manipulator) (bf : BitField)
    (offset size0 value : Z) :
  well_formed bf ->
  0 <= offset -> 0 <= size0 <= 64 -> offset + size0 <= size bf ->
  iface_InsertUint64 bm offset size0 value bf
  = iface_InsertUint64 bm offset size0 (low_bits size0 value) bf.
Proof.
  intros Hwf Ho Hs He.
  destruct (InsertUint64_in_bounds bm bf offset size0 value Hwf Ho Hs He)
    as (d1 & Hi1 & Hl1 & Hok1 & Hb1).
  destruct (InsertUint64_in_bounds bm bf offset size0 (low_bits size0 value) Hwf Ho Hs He)
    as (d2 & Hi2 & Hl2 & Hok2 & Hb2).
  rewrite Hi1, Hi2. do 2 f_equal.
  apply (insert_results_agree bf); try congruence.
  intros q Hq. rewrite Hb1, Hb2 by assumption.
  destruct (Z.leb_spec offset q), (Z.ltb_spec q (offset + size0));
    simpl; try reflexivity.
  rewrite low_bits_mod by assumption.
  destruct bm; unfold group_bit; rewrite Z.mod_pow2_bits_low by lia; reflexivity.
Qed.

Lemma insert_ignores_high_bits_witness :
  well_formed (iface_New LittleEndian 16)
  /\ iface_InsertUint64 LittleEndian 4 4 0xABCD (iface_New LittleEndian 16)
     = iface_InsertUint64 LittleEndian 4 4 (low_bits 4 0xABCD) (iface_New LittleEndian 16).
Proof.
  assert (Hwf : well_formed (iface_New LittleEndian 16))
    by (apply New_well_formed; lia).
  split; [exact Hwf|].
  apply (insert_ignores_high_bits LittleEndian _ 4 4 0xABCD Hwf); simpl; lia.
Defined.

(** The bounds test decides everything on a well-formed field when
    [offset + size] does not wrap: a group within the declared bits and at
    most 64 wide is inserted and extracted with a [nil] error; any other
    group gets [InvalidOperation] from both, with the field untouched.
    Neither [OutOfRange] nor a panic can come out. *)
Theorem bounds_test_decides (bm : Manipulator) (bf : BitField) (offset size0 value : Z) :
  well_formed bf -> 0 <= offset -> 0 <= size0 -> offset + size0 < 2 ^ 64 ->
  if (offset + size0 <=? size bf) && (size0 <=? 64)
  then (exists bf', iface_InsertUint64 bm offset size0 value bf = Some (None, bf'))
       /\ (exists r, iface_ExtractUint64 bm offset size0 bf = Some ((r, None), bf))
  else iface_InsertUint64 bm offset size0 value bf = Some (Some InvalidOperation, bf)
       /\ iface_ExtractUint64 bm offset size0 bf = Some ((0, Some InvalidOperation), bf).
Proof.
  intros Hwf Ho Hs Hsum.
  destruct (Z.leb_spec (offset + size0) (size bf)) as [He|He];
    [destruct (Z.leb_spec size0 64) as [H64|H64]|]; simpl.
  - destruct (InsertUint64_in_bounds bm bf offset size0 value Hwf Ho) as (d' & Hi & _);
      [lia | lia |].
    destruct Hwf as (Hsz & Hcov & _).
    destruct (ExtractUint64_in_bounds bm bf offset size0 Hsz Hcov Ho) as (r & Hr & _);
      [lia | lia |].
    split; eauto.
  - apply V2_bounds_failure; lia.
  - apply V2_bounds_failure; lia.
Qed.

Lemma bounds_test_decides_witness :
  well_formed (iface_New LittleEndian 16)
  /\ iface_InsertUint64 LittleEndian 8 10 0x3FF (iface_New LittleEndian 16)
     = Some (Some InvalidOperation, iface_New LittleEndian 16).
Proof.
  assert (Hwf : well_formed (iface_New LittleEndian 16))
    by (apply New_well_formed; lia).
  split; [exact Hwf|].
  refine (proj1 (bounds_test_decides LittleEndian _ 8 10 0x3FF Hwf _ _ _)); lia.
Defined.

End FurtherGroups.

(** ** Where [offset + size] wraps *)

Section Wrap.

Import V2.

Lemma wrap64_sub x : 2 ^ 64 <= x < 2 * 2 ^ 64 -> wrap64 x = x - 2 ^ 64.
Proof.
  intros Hx. unfold wrap64.
  replace x with (x - 2 ^ 64 + 1 * 2 ^ 64) at 1 by lia.
  rewrite Z.mod_add by lia. apply Z.mod_small. lia.
Qed.

Lemma write_out_of_range bf pos (v : bool) :
  size bf <= pos ->
  (if v then manipulator_SetBit pos else manipulator_ClearBit pos) bf
  = Some (Some OutOfRange, bf).
Proof.
  intros Hpos. unfold manipulator_SetBit, manipulator_ClearBit.
  destruct v; [apply SetBit_out_of_range | apply ClearBit_out_of_range]; assumption.
Qed.

(** A group that runs past [2^64] passes the bounds test when the wrapped
    sum is within the declared bits.  The little-endian loops then start at
    [offset] itself, which is beyond every declared bit of such a field:
    insert and extract return [OutOfRange] and leave the field as it was. *)
Theorem littleEndian_wrapped_group (bf : BitField) (offset size0 value : Z) :
  uint64_ok offset -> 1 <= size0 <= 64 ->
  2 ^ 64 <= offset + size0 -> offset + size0 - 2 ^ 64 <= size bf <= offset ->
  littleEndian_InsertUint64 offset size0 value bf = Some (Some OutOfRange, bf)
  /\ littleEndian_ExtractUint64 offset size0 bf = Some ((0, Some OutOfRange), bf).
Proof.
  intros Ho Hs Hwrap Hsize. unfold uint64_ok in Ho.
  assert (Htest : (size bf <? wrap64 (offset + size0)) || (64 <? size0) = false).
  { rewrite wrap64_sub by lia. case_cmp. }
  assert (Hn : Z.to_nat size0 = S (Z.to_nat (size0 - 1))) by lia.
  unfold littleEndian_InsertUint64, littleEndian_ExtractUint64.
  rewrite Htest, Hn. cbn [littleEndian_InsertUint64_loop littleEndian_ExtractUint64_loop].
  rewrite Z.add_0_r, wrap64_small by lia.
  unfold bind. split.
  - rewrite (write_out_of_range bf offset (Z.land (Z.shiftr value 0) 1 =? 1)) by lia.
    reflexivity.
  - unfold manipulator_TestBit. rewrite TestBit_out_of_range by lia. reflexivity.
Qed.

Lemma littleEndian_wrapped_group_witness :
  uint64_ok (2 ^ 64 - 1) /\ 1 <= 2 <= 64 /\ 2 ^ 64 <= 2 ^ 64 - 1 + 2
  /\ littleEndian_InsertUint64 (2 ^ 64 - 1) 2 3 (littleEndian_New 16)
     = Some (Some OutOfRange, littleEndian_New 16).
Proof.
  assert (Ho : uint64_ok (2 ^ 64 - 1)) by (red; lia).
  assert (Hs : 1 <= 2 <= 64) by lia.
  assert (Hw : 2 ^ 64 <= 2 ^ 64 - 1 + 2) by lia.
  split; [exact Ho|]. split; [exact Hs|]. split; [exact Hw|].
  refine (proj1 (littleEndian_wrapped_group (littleEndian_New 16) (2 ^ 64 - 1) 2 3
                   Ho Hs Hw _)).
  simpl. lia.
Defined.

(** The big-endian insert loop over a wrapped group, counted from the
    iteration that addresses position [2^64 - 1]: the iterations before it
    are those of an insert of the low bits at offset 0, and that iteration
    fails. *)
Lemma bigEndian_wrapped_loop bf0 offset size0 value (k : nat) :
  uint64_ok (size bf0) -> uint64_ok offset -> (1 <= k)%nat ->
  offset + Z.of_nat k = 2 ^ 64 ->
  forall (i : nat) bf, size bf = size bf0 ->
    offset + Z.of_nat (i + k) <= 2 ^ 64 + 2 ^ 64 - 1 ->
    bigEndian_InsertUint64_loop (i + k) offset size0 value bf
    = match bigEndian_InsertUint64_loop i 0 (size0 - Z.of_nat k) value bf with
      | Some (None, bf') => Some (Some OutOfRange, bf')
      | other => other
      end.
Proof.
  intros Hsz Ho Hk Hsum. unfold uint64_ok in *.
  assert (Hshape : forall e bf bf' pos (v : bool),
             (if v then manipulator_SetBit pos else manipulator_ClearBit pos) bf
             = Some (e, bf') -> size bf' = size bf).
  { intros e bf bf' pos v Hrun.
    apply (mutation_same_shape (manipulator bf) pos bf e bf').
    unfold manipulator_SetBit, manipulator_ClearBit in Hrun. destruct v; auto. }
  induction i as [|i IH]; intros bf Hbf Hlim.
  - simpl. destruct k as [|k]; [lia|].
    cbn [bigEndian_InsertUint64_loop]. unfold bind.
    rewrite wrap64_small by lia.
    rewrite write_out_of_range by lia. reflexivity.
  - change (S i + k)%nat with (S (i + k)).
    cbn [bigEndian_InsertUint64_loop]. unfold bind.
    replace (wrap64 (offset + Z.of_nat (S (i + k)) - 1)) with (wrap64 (0 + Z.of_nat (S i) - 1)).
    2:{ rewrite (wrap64_small (0 + Z.of_nat (S i) - 1)) by lia.
        rewrite wrap64_sub by lia. lia. }
    replace (size0 - Z.of_nat (S (i + k))) with (size0 - Z.of_nat k - Z.of_nat (S i)) by lia.
    destruct ((if Z.land (Z.shiftr value (size0 - Z.of_nat k - Z.of_nat (S i))) 1 =? 1
               then manipulator_SetBit (wrap64 (0 + Z.of_nat (S i) - 1))
               else manipulator_ClearBit (wrap64 (0 + Z.of_nat (S i) - 1))) bf)
      as [[[e|] bf1]|] eqn:Hstep; try reflexivity.
    apply IH; [|lia].
    rewrite <- Hbf. eapply Hshape. exact Hstep.
Qed.

(** The big-endian insert over a wrapped group: it writes the low
    [w = offset + size - 2^64] bits of the value into positions [0, w), as
    the insert [(0, w, value)] does, and then returns [OutOfRange]: the
    field is changed although the call fails. *)
Theorem bigEndian_wrapped_group (bf : BitField) (offset size0 value : Z) :
  well_formed bf -> uint64_ok offset -> 1 <= size0 <= 64 ->
  2 ^ 64 <= offset + size0 -> offset + size0 - 2 ^ 64 <= size bf ->
  exists bf',
    bigEndian_InsertUint64 0 (offset + size0 - 2 ^ 64) value bf = Some (None, bf')
    /\ bigEndian_InsertUint64 offset size0 value bf = Some (Some OutOfRange, bf').
Proof.
  intros Hwf Ho Hs Hwrap Hsize.
  pose proof Hwf as (Hsz & _ & _). unfold uint64_ok in *.
  set (w := offset + size0 - 2 ^ 64) in *.
  destruct (InsertUint64_in_bounds BigEndian bf 0 w value Hwf) as (d' & Hins & _);
    [lia | lia | lia |].
  simpl in Hins. exists (set_data bf d'). split; [exact Hins|].
  unfold bigEndian_InsertUint64 in *.
  rewrite bounds_pass in Hins by (unfold uint64_ok; lia).
  assert (Htest : (size bf <? wrap64 (offset + size0)) || (64 <? size0) = false).
  { rewrite wrap64_sub by lia. case_cmp. }
  rewrite Htest.
  replace (Z.to_nat size0) with (Z.to_nat w + Z.to_nat (2 ^ 64 - offset))%nat by lia.
  rewrite (bigEndian_wrapped_loop bf offset size0 value (Z.to_nat (2 ^ 64 - offset)))
    by (unfold uint64_ok; lia).
  replace (size0 - Z.of_nat (Z.to_nat (2 ^ 64 - offset))) with w by lia.
  rewrite Hins. reflexivity.
Qed.

Lemma bigEndian_wrapped_group_witness :
  well_formed (bigEndian_New 16)
  /\ exists bf',
       bigEndian_InsertUint64 0 (2 ^ 64 - 1 + 2 - 2 ^ 64) 3 (bigEndian_New 16) = Some (None, bf')
       /\ bigEndian_InsertUint64 (2 ^ 64 - 1) 2 3 (bigEndian_New 16)
          = Some (Some OutOfRange, bf').
Proof.
  assert (Hwf : well_formed (bigEndian_New 16))
    by (apply (New_well_formed BigEndian); lia).
  split; [exact Hwf|].
  apply (bigEndian_wrapped_group (bigEndian_New 16) (2 ^ 64 - 1) 2 3 Hwf);
    [red; lia | lia | lia | simpl; lia].
Defined.

End Wrap.

(** ** Call sequences on the container *)

Section FurtherContainer.

Import V2.

Lemma run_same_shape cs : forall bf rs bf',
  run cs bf = Some (rs, bf') -> same_shape bf bf'.
Proof.
  induction cs as [|c cs IH]; intros bf rs bf'; cbn [run].
  - unfold ret. intros [= _ <-]. apply same_shape_refl.
  - unfold bind at 1.
    destruct (perform c bf) as [[r bf1]|] eqn:Hc; [|discriminate].
    unfold bind. destruct (run cs bf1) as [[rs1 bf2]|] eqn:Hcs; [|discriminate].
    unfold ret. intros [= _ <-].
    eapply same_shape_trans; [eapply perform_same_shape | eapply IH]; eassumption.
Qed.

(** Whatever a sequence of calls on the container does and returns, the
    field keeps its declared size, its strategy and the length of its
    buffer; a well-formed field stays well-formed, and the invariant
    [len(buffer) = ceil(size / 8)] is kept. *)
Theorem calls_keep_the_shape (cs : list call) (bf bf' : BitField) (rs : list returned) :
  run cs bf = Some (rs, bf') ->
  Size bf' = Size bf
  /\ manipulator bf' = manipulator bf
  /\ length (Bytes bf') = length (Bytes bf)
  /\ (well_formed bf -> well_formed bf')
  /\ (size_invariant bf -> size_invariant bf').
Proof.
  intros Hrun. destruct (run_same_shape cs bf rs bf' Hrun) as (Hs & Hm & Hl & Hok).
  unfold Size, Bytes, well_formed, covers, size_invariant, uint64_ok.
  rewrite Hs, Hl. repeat split; try assumption; try tauto.
Qed.

Lemma calls_keep_the_shape_witness :
  exists rs bf',
    run [CallInsertUint64 8 16 0xFFFF; CallToggleBit 3; CallTestBit 3]
      (iface_New BigEndian 20) = Some (rs, bf')
    /\ Size bf' = Size (iface_New BigEndian 20)
    /\ length (Bytes bf') = length (Bytes (iface_New BigEndian 20)).
Proof.
  eexists. eexists.
  assert (Hrun : run [CallInsertUint64 8 16 0xFFFF; CallToggleBit 3; CallTestBit 3]
                   (iface_New BigEndian 20)
                 = Some ([RetError (Some InvalidOperation);
                          RetError (Some InvalidOperation);
                          RetBool false None],
                         set_err (iface_New BigEndian 20) (Some InvalidOperation)))
    by (vm_compute; reflexivity).
  split; [exact Hrun|].
  destruct (calls_keep_the_shape _ _ _ _ Hrun) as (Hs & _ & Hl & _).
  split; assumption.
Defined.

Lemma run_stored cs : forall bf e rs bf',
  err bf = Some e -> run cs bf = Some (rs, bf') -> bf' = bf.
Proof.
  induction cs as [|c cs IH]; intros bf e rs bf' Herr; cbn [run].
  - unfold ret. intros [= <- <-]. reflexivity.
  - unfold bind at 1.
    destruct (perform c bf) as [[r bf1]|] eqn:Hc; [|discriminate].
    assert (Hbf1 : bf1 = bf).
    { destruct (mutating c) eqn:Hmut.
      - rewrite (perform_latched c bf e Hmut Herr) in Hc. congruence.
      - eapply perform_read_state; eassumption. }
    subst bf1. unfold bind.
    destruct (run cs bf) as [[rs1 bf2]|] eqn:Hcs; [|discriminate].
    unfold ret. intros [= <- <-].
    exact (IH bf e rs1 bf2 Herr Hcs).
Qed.

(** A mutating call on a field with no stored error stores exactly what it
    returns. *)
Lemma perform_stores c bf e bf' :
  mutating c = true -> err bf = None ->
  perform c bf = Some (RetError e, bf') -> err bf' = e.
Proof.
  intros Hmut Herr.
  destruct c; try discriminate; simpl;
    unfold bind, SetBit, ClearBit, ToggleBit, InsertUint64, latched; rewrite Herr;
    match goal with
    | |- context [match ?op bf with _ => _ end] =>
        destruct (op bf) as [[e1 bf1]|]; [|discriminate]
    end;
    unfold ret; intros [= -> <-]; reflexivity.
Qed.

Lemma perform_mutating_returns c bf r bf' :
  mutating c = true -> perform c bf = Some (r, bf') -> exists e, r = RetError e.
Proof.
  intros Hmut.
  destruct c; try discriminate; simpl; unfold bind;
    match goal with
    | |- context [match ?op bf with _ => _ end] =>
        destruct (op bf) as [[e1 bf1]|]; [|discriminate]
    end;
    unfold ret; intros [= <- _]; eauto.
Qed.

(** Check the error once at the end: after a sequence of calls on a field
    that stored no error, [Error()] is the error of the first mutating call
    that failed, and [nil] when none did. *)
Theorem Error_is_first_failure (cs : list call) : forall (bf bf' : BitField) (rs : list returned),
  Error bf = None -> run cs bf = Some (rs, bf') -> Error bf' = first_failure cs rs.
Proof.
  unfold Error.
  induction cs as [|c cs IH]; intros bf bf' rs Herr; cbn [run].
  - unfold ret. intros [= <- <-]. exact Herr.
  - unfold bind at 1.
    destruct (perform c bf) as [[r bf1]|] eqn:Hc; [|discriminate].
    unfold bind. destruct (run cs bf1) as [[rs1 bf2]|] eqn:Hcs; [|discriminate].
    unfold ret. intros [= <- <-]. cbn [first_failure].
    destruct (mutating c) eqn:Hmut.
    + destruct (perform_mutating_returns c bf r bf1 Hmut Hc) as [e ->].
      pose proof (perform_stores c bf e bf1 Hmut Herr Hc) as Hstored.
      destruct e as [e|].
      * rewrite (run_stored cs bf1 e rs1 bf2 Hstored Hcs). exact Hstored.
      * eapply IH; eassumption.
    + apply (perform_read_state c bf bf1 r Hmut) in Hc. subst bf1.
      eapply IH; eassumption.
Qed.

Lemma Error_is_first_failure_witness :
  Error (iface_New BigEndian 32) = None
  /\ exists rs bf',
       run [CallInsertUint64 0 4 0xA; CallSetBit 40; CallInsertUint64 30 4 0xF;
            CallClearBit 0] (iface_New BigEndian 32) = Some (rs, bf')
       /\ Error bf' = Some OutOfRange.
Proof.
  split; [reflexivity|].
  assert (Hrun : run [CallInsertUint64 0 4 0xA; CallSetBit 40; CallInsertUint64 30 4 0xF;
                      CallClearBit 0] (iface_New BigEndian 32)
                 = Some ([RetError None; RetError (Some OutOfRange);
                          RetError (Some OutOfRange); RetError (Some OutOfRange)],
                         set_err (set_data (iface_New BigEndian 32) [0xA0; 0; 0; 0])
                           (Some OutOfRange)))
    by (vm_compute; reflexivity).
  eexists. eexists. split; [exact Hrun|].
  exact (Error_is_first_failure _ (iface_New BigEndian 32) _ _ eq_refl Hrun).
Defined.




End FurtherContainer.

(** ** Version 1: extract, construction from bytes, fault injection *)

Section FurtherV1.

Import V2.

Lemma shl64_overflow k : 64 <= k -> shl64 1 k = 0.
Proof.
  intros Hk. unfold shl64, wrap64. rewrite Z.shiftl_1_l.
  replace k with (64 + (k - 64)) by lia.
  rewrite Z.pow_add_r by lia. rewrite Z.mul_comm. apply Z.mod_mul. lia.
Qed.

Lemma to_v2_inj bf bf' : to_v2 bf = to_v2 bf' -> bf = bf'.
Proof. destruct bf, bf'. unfold to_v2. simpl. congruence. Qed.

Lemma lift_v2_Some {A} (r : option (A * V1.BitField)) (a : A) (bf2 : BitField) :
  lift_v2 r = Some (a, bf2) -> exists bf1, r = Some (a, bf1) /\ to_v2 bf1 = bf2.
Proof.
  destruct r as [[a1 bf1]|]; simpl; [|discriminate].
  intros [= -> <-]. eauto.
Qed.

Lemma V1_ExtractUint_loop_eq offset n : forall i group bf,
  lift_v2 (V1.ExtractUint_loop V1.self n i offset group bf)
  = littleEndian_ExtractUint64_loop n i offset group (to_v2 bf).
Proof.
  induction n as [|n IH]; intros i group bf; [reflexivity|].
  cbn [V1.ExtractUint_loop littleEndian_ExtractUint64_loop].
  unfold bind. change (manipulator_TestBit (wrap64 (offset + i)) (to_v2 bf))
    with (littleEndian_TestBit (wrap64 (offset + i)) (to_v2 bf)).
  rewrite <- V1_TestBit_eq. simpl V1.man_TestBit.
  destruct (V1.TestBit (wrap64 (offset + i)) bf) as [[[b [e|]] bf1]|]; simpl;
    try reflexivity.
  apply IH.
Qed.

(** [ExtractUint] of version 1 against [ExtractUint64] of the little-endian
    strategy: where the bounds test of version 1 passes and the group is at
    most 64 bits wide, both return the same value and error and leave the
    same field; where the test fails, version 1 returns its own error,
    carrying the range, and version 2 [InvalidOperation]. *)
Theorem V1_ExtractUint_vs_V2 (bf : V1.BitField) (offset size0 : Z) :
  (wrap64 (offset + size0) <= V1.sz bf -> size0 <= 64 ->
   lift_v2 (V1.ExtractUint V1.self offset size0 bf)
   = littleEndian_ExtractUint64 offset size0 (to_v2 bf))
  /\ (V1.sz bf < wrap64 (offset + size0) ->
      V1.ExtractUint V1.self offset size0 bf
      = Some ((0, Some (RangeOutOfBounds offset (wrap64 (offset + size0)))), bf)
      /\ littleEndian_ExtractUint64 offset size0 (to_v2 bf)
         = Some ((0, Some InvalidOperation), to_v2 bf)).
Proof.
  unfold V1.ExtractUint, littleEndian_ExtractUint64. simpl size. split.
  - intros Hpass H64.
    destruct (Z.ltb_spec (V1.sz bf) (wrap64 (offset + size0))); [lia|].
    destruct (Z.ltb_spec 64 size0); [lia|]. simpl.
    apply V1_ExtractUint_loop_eq.
  - intros Hfail.
    destruct (Z.ltb_spec (V1.sz bf) (wrap64 (offset + size0))); [|lia].
    split; reflexivity.
Qed.

Lemma V1_ExtractUint_vs_V2_witness :
  wrap64 (4 + 16) <= V1.sz (V1.mkBitField [0xA0; 0xAA; 0x0A; 0x00] 32) /\ 16 <= 64
  /\ lift_v2 (V1.ExtractUint V1.self 4 16 (V1.mkBitField [0xA0; 0xAA; 0x0A; 0x00] 32))
     = littleEndian_ExtractUint64 4 16 (to_v2 (V1.mkBitField [0xA0; 0xAA; 0x0A; 0x00] 32)).
Proof.
  assert (Hp : wrap64 (4 + 16) <= V1.sz (V1.mkBitField [0xA0; 0xAA; 0x0A; 0x00] 32))
    by (vm_compute; discriminate).
  assert (H64 : 16 <= 64) by lia.
  split; [exact Hp|]. split; [exact H64|].
  exact (proj1 (V1_ExtractUint_vs_V2 _ 4 16) Hp H64).
Defined.

Lemma V1_TestBit_in_buffer bf pos :
  0 <= pos < V1.sz bf -> pos < 8 * Z.of_nat (length (V1.bits bf)) ->
  V1.TestBit pos bf = Some ((bit_at LittleEndian (V1.bits bf) pos, None), bf).
Proof.
  intros Hpos Hbuf.
  pose proof (V1_TestBit_eq bf pos) as Heq.
  change (littleEndian_TestBit pos (to_v2 bf))
    with (iface_TestBit LittleEndian pos (to_v2 bf)) in Heq.
  rewrite TestBit_in_buffer in Heq by (simpl; lia).
  apply lift_v2_Some in Heq. destruct Heq as (bf1 & Hrun & Hbf1).
  apply to_v2_inj in Hbf1. subst bf1. exact Hrun.
Qed.

(** Past bit 64 the extract loop of version 1 tests bits and adds nothing
    to the value. *)
Lemma V1_ExtractUint_loop_tail bf offset n : forall i group,
  0 <= offset -> 64 <= i -> offset + i + Z.of_nat n <= V1.sz bf -> V1.sz bf < 2 ^ 64 ->
  V1.sz bf <= 8 * Z.of_nat (length (V1.bits bf)) ->
  V1.ExtractUint_loop V1.self n i offset group bf = Some ((group, None), bf).
Proof.
  induction n as [|n IH]; intros i group Ho Hi Hend Hsz Hcov; [reflexivity|].
  cbn [V1.ExtractUint_loop]. unfold bind. simpl V1.man_TestBit.
  rewrite wrap64_small by lia.
  rewrite V1_TestBit_in_buffer by lia.
  rewrite shl64_overflow by lia. rewrite Z.lor_0_r.
  replace (if bit_at LittleEndian (V1.bits bf) (offset + i) then group else group)
    with group by (destruct (bit_at _ _ _); reflexivity).
  apply IH; lia.
Qed.

Lemma V1_ExtractUint_loop_split man offset n m : forall i group bf,
  V1.ExtractUint_loop man (n + m) i offset group bf
  = match V1.ExtractUint_loop man n i offset group bf with
    | Some ((g, None), bf') => V1.ExtractUint_loop man m (i + Z.of_nat n) offset g bf'
    | other => other
    end.
Proof.
  induction n as [|n IH]; intros i group bf.
  - simpl. rewrite Z.add_0_r. reflexivity.
  - change (S n + m)%nat with (S (n + m)). cbn [V1.ExtractUint_loop]. unfold bind.
    destruct (V1.man_TestBit man (wrap64 (offset + i)) bf) as [[[b [e|]] bf1]|];
      try reflexivity.
    rewrite IH. replace (i + 1 + Z.of_nat n) with (i + Z.of_nat (S n)) by lia.
    reflexivity.
Qed.

(** [ExtractUint] of version 1 does not test [size > 64]: on a field that
    holds the group, a group wider than 64 bits is extracted with a [nil]
    error, and the value is that of its first 64 bits. *)
Theorem V1_ExtractUint_beyond_64 (bf : V1.BitField) (offset size0 : Z) :
  0 <= offset -> 64 <= size0 -> offset + size0 <= V1.sz bf -> V1.sz bf < 2 ^ 64 ->
  V1.sz bf <= 8 * Z.of_nat (length (V1.bits bf)) ->
  exists r,
    V1.ExtractUint V1.self offset 64 bf = Some ((r, None), bf)
    /\ V1.ExtractUint V1.self offset size0 bf = Some ((r, None), bf).
Proof.
  intros Ho Hs Hend Hsz Hcov.
  destruct (ExtractUint64_in_bounds LittleEndian (to_v2 bf) offset 64)
    as (r & Hrun & _); try (simpl; lia).
  { red. simpl. lia. }
  { red. simpl. lia. }
  simpl in Hrun. unfold littleEndian_ExtractUint64 in Hrun.
  rewrite bounds_pass in Hrun by (unfold uint64_ok; simpl; lia).
  rewrite <- V1_ExtractUint_loop_eq in Hrun.
  apply lift_v2_Some in Hrun. destruct Hrun as (bf1 & Hrun & Hbf1).
  apply to_v2_inj in Hbf1. subst bf1.
  exists r. unfold V1.ExtractUint.
  rewrite !wrap64_small by lia.
  destruct (Z.ltb_spec (V1.sz bf) (offset + 64)); [lia|].
  destruct (Z.ltb_spec (V1.sz bf) (offset + size0)); [lia|].
  split; [exact Hrun|].
  replace (Z.to_nat size0) with (Z.to_nat 64 + Z.to_nat (size0 - 64))%nat by lia.
  rewrite V1_ExtractUint_loop_split, Hrun.
  apply V1_ExtractUint_loop_tail; lia.
Qed.

Lemma V1_ExtractUint_beyond_64_witness :
  0 <= 8 /\ 64 <= 100
  /\ exists r,
       V1.ExtractUint V1.self 8 64 (V1.New 128) = Some ((r, None), V1.New 128)
       /\ V1.ExtractUint V1.self 8 100 (V1.New 128) = Some ((r, None), V1.New 128).
Proof.
  assert (Ho : 0 <= 8) by lia.
  assert (Hs : 64 <= 100) by lia.
  split; [exact Ho|]. split; [exact Hs|].
  apply (V1_ExtractUint_beyond_64 (V1.New 128) 8 100 Ho Hs); simpl; lia.
Defined.

(** [FromBytes] of version 1 declares eight bits a byte and copies the
    bytes: the field holds exactly the bytes given. *)
Theorem V1_FromBytes_holds_bytes (bytes : list Z) :
  Z.of_nat (length bytes) * 8 + 7 < 2 ^ 64 ->
  V1.FromBytes bytes = V1.mkBitField bytes (Z.of_nat (length bytes) * 8)
  /\ V1.Bytes (V1.FromBytes bytes) = bytes.
Proof.
  intros Hlen.
  assert (Heq : V1.FromBytes bytes = V1.mkBitField bytes (Z.of_nat (length bytes) * 8)).
  { unfold V1.FromBytes, V1.New, V1.set_bits. cbn [V1.bits V1.sz].
    rewrite (wrap64_small (Z.of_nat (length bytes) * 8)) by lia.
    rewrite (wrap64_small (Z.of_nat (length bytes) * 8 + 7)) by lia.
    replace ((Z.of_nat (length bytes) * 8 + 7) / 8) with (Z.of_nat (length bytes)).
    2:{ symmetry. rewrite Z.div_add_l by lia. rewrite (Z.div_small 7 8) by lia. lia. }
    rewrite Nat2Z.id, length_replicate.
    rewrite firstn_all, drop_replicate, Nat.sub_diag. simpl.
    rewrite app_nil_r. reflexivity. }
  split; [exact Heq|]. rewrite Heq. reflexivity.
Qed.

Lemma V1_FromBytes_holds_bytes_witness :
  Z.of_nat (length [0xDE; 0xAD; 0xBE]) * 8 + 7 < 2 ^ 64
  /\ V1.FromBytes [0xDE; 0xAD; 0xBE] = V1.mkBitField [0xDE; 0xAD; 0xBE] (Z.of_nat 3 * 8).
Proof.
  assert (H : Z.of_nat (length [0xDE; 0xAD; 0xBE]) * 8 + 7 < 2 ^ 64) by (simpl; lia).
  split; [exact H|].
  exact (proj1 (V1_FromBytes_holds_bytes [0xDE; 0xAD; 0xBE] H)).
Defined.

Lemma faulty_loop e offset value (m : nat) : forall (n : nat) i bf,
  0 <= i -> (m < n)%nat ->
  (forall j, i <= j < i + Z.of_nat m -> Z.testbit value j = false) ->
  Z.testbit value (i + Z.of_nat m) = true ->
  V1.InsertUint_loop (faulty_SetBit e) n i offset value bf
  = match V1.InsertUint_loop V1.self m i offset 0 bf with
    | Some (None, bf') => Some (Some e, bf')
    | other => other
    end.
Proof.
  induction m as [|m IH]; intros n i bf Hi Hn Hlow Hk;
    (destruct n as [|n]; [lia|]); cbn [V1.InsertUint_loop]; unfold bind.
  - rewrite shift_and_one by lia. rewrite Z.add_0_r in Hk. rewrite Hk. reflexivity.
  - rewrite shift_and_one by lia. rewrite (Hlow i) by lia.
    rewrite Z.shiftr_0_l. simpl (Z.land 0 1 =? 1). cbv iota.
    simpl V1.man_ClearBit.
    destruct (V1.ClearBit (wrap64 (offset + i)) bf) as [[[e1|] bf1]|]; try reflexivity.
    apply IH; [lia | lia | intros j Hj; apply Hlow; lia |].
    replace (i + 1 + Z.of_nat m) with (i + Z.of_nat (S m)) by lia. exact Hk.
Qed.

(** Fault injection, version 1: with a manipulator whose [SetBit] fails,
    [InsertUint] clears the positions of the value's zero bits below its
    lowest one bit, as an insert of [k] zero bits does, and then returns the
    manipulator's error: the bits written before the failure stay
    written. *)
Theorem V1_InsertUint_partial_mutation (e : error) (bf : V1.BitField)
    (offset size0 value k : Z) :
  0 <= offset -> 0 <= k < size0 -> size0 <= 64 ->
  offset + size0 <= V1.sz bf -> V1.sz bf < 2 ^ 64 ->
  V1.sz bf <= 8 * Z.of_nat (length (V1.bits bf)) -> Forall byte_ok (V1.bits bf) ->
  (forall j, 0 <= j < k -> Z.testbit value j = false) -> Z.testbit value k = true ->
  exists bf',
    V1.InsertUint V1.self offset k 0 bf = Some (None, bf')
    /\ V1.InsertUint (faulty_SetBit e) offset size0 value bf = Some (Some e, bf').
Proof.
  intros Ho Hk H64 Hend Hsz Hcov Hok Hlow Hbit.
  assert (Hwf : well_formed (to_v2 bf)).
  { split; [|split]; [red; simpl; lia | red; simpl; lia | exact Hok]. }
  destruct (InsertUint64_in_bounds LittleEndian (to_v2 bf) offset k 0 Hwf Ho)
    as (d' & Hins & _); [lia | simpl; lia |].
  simpl in Hins. unfold littleEndian_InsertUint64 in Hins.
  rewrite bounds_pass in Hins by (unfold uint64_ok; simpl; lia).
  rewrite <- V1_InsertUint_loop_eq in Hins by exact Hok.
  apply lift_v2_Some in Hins. destruct Hins as (bf' & Hrun & _).
  exists bf'. unfold V1.InsertUint.
  rewrite !wrap64_small by lia.
  destruct (Z.ltb_spec (V1.sz bf) (offset + k)); [lia|].
  destruct (Z.ltb_spec (V1.sz bf) (offset + size0)); [lia|].
  destruct (Z.ltb_spec 64 k); [lia|]. destruct (Z.ltb_spec 64 size0); [lia|].
  simpl. split; [exact Hrun|].
  rewrite (faulty_loop e offset value (Z.to_nat k) (Z.to_nat size0) 0 bf);
    [ rewrite Hrun; reflexivity | lia | lia | intros j Hj; apply Hlow; lia
    | rewrite Z.add_0_l, Z2Nat.id by lia; exact Hbit ].
Qed.

Lemma V1_InsertUint_partial_mutation_witness :
  Forall byte_ok (V1.bits (V1.mkBitField [0xFF; 0xFF] 16))
  /\ exists bf',
       V1.InsertUint V1.self 4 2 0 (V1.mkBitField [0xFF; 0xFF] 16) = Some (None, bf')
       /\ V1.InsertUint (faulty_SetBit InvalidOperation) 4 8 0xAC
            (V1.mkBitField [0xFF; 0xFF] 16) = Some (Some InvalidOperation, bf').
Proof.
  assert (Hok : Forall byte_ok (V1.bits (V1.mkBitField [0xFF; 0xFF] 16))).
  { simpl. repeat constructor; unfold byte_ok; lia. }
  split; [exact Hok|].
  apply (V1_InsertUint_partial_mutation InvalidOperation
           (V1.mkBitField [0xFF; 0xFF] 16) 4 8 0xAC 2);
    try (simpl; lia); try exact Hok; try reflexivity.
  intros j Hj. assert (j = 0 \/ j = 1) as [-> | ->] by lia; reflexivity.
Defined.

End FurtherV1.

(** ** What the reads never do *)

Section FurtherReads.

Import V2.

(** [TestBit] and [ExtractUint64] of either strategy never write: whatever
    they return, an error included, the field they leave is the field they
    were given. *)
Theorem reads_never_write (bm : Manipulator) (bf bf' : BitField) :
  (forall pos r, iface_TestBit bm pos bf = Some (r, bf') -> bf' = bf)
  /\ (forall offset size0 r,
        iface_ExtractUint64 bm offset size0 bf = Some (r, bf') -> bf' = bf).
Proof.
  split.
  - intros pos r. apply TestBit_state.
  - intros offset size0 r. apply ExtractUint64_state.
Qed.

Lemma reads_never_write_witness :
  iface_ExtractUint64 BigEndian 12 8 (bigEndian_FromBytes [0x12; 0x34] 16)
  = Some ((0, Some InvalidOperation), bigEndian_FromBytes [0x12; 0x34] 16)
  /\ bigEndian_FromBytes [0x12; 0x34] 16 = bigEndian_FromBytes [0x12; 0x34] 16.
Proof.
  assert (Hrun : iface_ExtractUint64 BigEndian 12 8 (bigEndian_FromBytes [0x12; 0x34] 16)
                 = Some ((0, Some InvalidOperation), bigEndian_FromBytes [0x12; 0x34] 16))
    by reflexivity.
  split; [exact Hrun|].
  exact (proj2 (reads_never_write BigEndian _ _) 12 8 _ Hrun).
Defined.

End FurtherReads.
